(** * A 9x9 sudoku solver: shallow embedding of [index.ts] and its properties

    The TypeScript program reads a grid from a text file, checks whether it
    is already a complete solution, and otherwise runs a depth-first
    backtracking search.  The definitions below follow the source function by
    function and keep its names. *)

From Stdlib Require Import Ascii String DecimalString Decimal.
From stdpp Require Import base option list numbers strings sorting.

Set Default Proof Using "Type".
Open Scope nat_scope.

(** ** Data model

    [type Numbers = 1 | ... | 9], [type Domain = 0 | ... | 8],
    [type Cell = Numbers | null], [type Row] a 9-tuple of cells and
    [type Sudoku] a 9-tuple of rows.  At run time these are plain JS numbers
    and arrays, so the model uses [nat] and lists; [None] is [null].  The
    static shape is the predicate [is_grid] and the static range of the
    digits is [is_board]: the types promise both, [parseGame] checks the
    first only.  Indices are of type [Domain], so on a grid every index of
    the source is in range; the theorems assume [is_grid] where they need
    it. *)

Abbreviation Numbers := nat (only parsing).
Abbreviation Domain := nat (only parsing).
Abbreviation Coord := (nat * nat)%type (only parsing).
Abbreviation Cell := (option nat) (only parsing).
Abbreviation Row := (list (option nat)) (only parsing).
Abbreviation Sudoku := (list (list (option nat))) (only parsing).

(** [[...Array(9).keys()]] *)
Definition keys9 : list Domain := seq 0 9.

(** [board[i][j]]: [None] is the JS [undefined] of an index out of range,
    [Some None] is [null]. *)
Definition cellAt (board : Sudoku) (i j : nat) : option Cell :=
  board !! i ≫= (.!! j).

(** The value of [board[i][j]] where the source only tests it for
    truthiness or set membership: there [undefined] and [null] behave
    alike. *)
Definition readCell (board : Sudoku) (i j : nat) : Cell :=
  default None (cellAt board i j).

(** Nine rows of nine cells. *)
Definition is_grid (board : Sudoku) : Prop :=
  length board = 9 ∧ Forall (λ row : Row, length row = 9) board.

Definition digit (n : nat) : Prop := 1 ≤ n ≤ 9.

(** A grid whose cells are empty or hold a digit of 1-9. *)
Definition is_board (board : Sudoku) : Prop :=
  is_grid board ∧
  Forall (Forall (λ c : Cell, from_option digit True c)) board.

(** The same two predicates as boolean tests. *)
Definition is_gridb (board : Sudoku) : bool :=
  (length board =? 9) && forallb (λ row : Row, length row =? 9) board.

Definition is_boardb (board : Sudoku) : bool :=
  is_gridb board &&
  forallb (forallb (λ c : Cell,
    match c with Some n => (1 <=? n) && (n <=? 9) | None => true end)) board.

(** ** JS [Set]: insertion ordered, no duplicates *)

Module JSSet.
Section ops.
Context {A : Type} `{EqDecision A}.

Definition has (s : list A) (x : A) : bool := bool_decide (x ∈ s).

Definition add (s : list A) (x : A) : list A :=
  if has s x then s else s ++ [x].

(** [new Set(iterable)] *)
Definition from (xs : list A) : list A := foldl add [] xs.

Definition size (s : list A) : nat := length s.
End ops.
End JSSet.

(** ** Region accessors *)

(** [if (item)] on a cell: [null] and [0] are falsy. *)
Definition truthy (item : Cell) : bool :=
  match item with
  | Some n => negb (n =? 0)
  | None => false
  end.

(** The loop [for (const item of initialContents) if (item) contents.add(item)]. *)
Definition compressContents (initialContents : list Cell) : list Numbers :=
  foldl (λ contents item,
           match item with
           | Some n => if truthy item then JSSet.add contents n else contents
           | None => contents
           end) [] initialContents.

(** [[...board[coord[0]]]] *)
Definition getRowContents (board : Sudoku) (coord : Coord) : list Cell :=
  default [] (board !! coord.1).

(** [matrix[0].map((_, colIndex) => matrix.map((row) => row[colIndex]))] *)
Definition transpose (matrix : Sudoku) : Sudoku :=
  imap (λ colIndex _, (λ row : Row, default None (row !! colIndex)) <$> matrix)
       (default [] (matrix !! 0)).

Definition getColumnContents (board : Sudoku) (coord : Coord) : list Cell :=
  let transposed := transpose board in
  default [] (transposed !! coord.2).

Definition getSubGridContents (board : Sudoku) (coord : Coord) : list Cell :=
  let subCoord := (coord.1 / 3, coord.2 / 3) in
  (λ i, let subGridOffset := (i / 3, i mod 3) in
        let pos := (subCoord.1 * 3 + subGridOffset.1,
                    subCoord.2 * 3 + subGridOffset.2) in
        readCell board pos.1 pos.2) <$> keys9.

(** [new Set([...a].filter((x) => !b.has(x)))] *)
Definition setDifference {A} `{EqDecision A} (a b : list A) : list A :=
  JSSet.from (filter (λ x, JSSet.has b x = false) a).

(** [new Set([...a].filter((x) => b.has(x)))] *)
Definition setIntersection {A} `{EqDecision A} (a b : list A) : list A :=
  JSSet.from (filter (λ x, JSSet.has b x = true) a).

Definition ALL_NUMBERS : list Numbers := JSSet.from [1; 2; 3; 4; 5; 6; 7; 8; 9].

Definition getOptionsForCoord (board : Sudoku) (coord : Coord) : list Numbers :=
  let row := getRowContents board coord in
  let col := getColumnContents board coord in
  let sub := getSubGridContents board coord in
  let contents := compressContents (row ++ col ++ sub) in
  let options := setDifference ALL_NUMBERS contents in
  options.

(** The inner [for (const j of ...)] of [getNextEmptyCoord], with its early
    [return [i, j]]. *)
Fixpoint scanRow (board : Sudoku) (i : Domain) (js : list Domain) : option Coord :=
  match js with
  | [] => None
  | j :: js' =>
      if bool_decide (cellAt board i j = Some None) then Some (i, j)
      else scanRow board i js'
  end.

Fixpoint scanRows (board : Sudoku) (ks : list Domain) : option Coord :=
  match ks with
  | [] => None
  | i :: ks' =>
      match scanRow board i keys9 with
      | Some c => Some c
      | None => scanRows board ks'
      end
  end.

Definition getNextEmptyCoord (board : Sudoku) : option Coord :=
  scanRows board keys9.

(** ** The solver *)

Record Game := mkGame { solved : bool; board : Sudoku }.

(** [const newBoard = structuredClone(board); newBoard[i][j] = option] *)
Definition place (board : Sudoku) (next : Coord) (option : Numbers) : Sudoku :=
  alter (λ row : Row, <[next.2 := Some option]> row) next.1 board.

(** The [for (const option of options)] loop of [solve]; [rec] is the
    recursive call and the fall-through is [return game]. *)
Fixpoint tryOptions (rec : Game → option Game) (game : Game) (next : Coord)
    (options : list Numbers) : option Game :=
  match options with
  | [] => Some game
  | option :: rest =>
      let newBoard := place (board game) next option in
      let newGame := mkGame false newBoard in
      match rec newGame with
      | None => None
      | Some finalGame =>
          if solved finalGame then Some finalGame
          else tryOptions rec game next rest
      end
  end.

(** The body of [solve], with the recursive call as a parameter. *)
Definition solveBody (rec : Game → option Game) (game : Game) : option Game :=
  match getNextEmptyCoord (board game) with
  | None => Some (mkGame true (board game))
  | Some next =>
      let options := getOptionsForCoord (board game) next in
      if length options =? 0 then Some game
      else tryOptions rec game next options
  end.

(** [solve] with a bound on the depth of the recursion: [None] means that the
    bound was reached. *)
Fixpoint solve_fuel (fuel : nat) (game : Game) : option Game :=
  match fuel with
  | 0 => None
  | S fuel' => solveBody (solve_fuel fuel') game
  end.

Definition emptyCount (board : Sudoku) : nat :=
  length (filter (λ c : Cell, c = None) (concat board)).

(** [solve] itself: the recursion is run with a bound it cannot reach (see
    [solve_fuel_enough] below). *)
Definition solve (game : Game) : Game :=
  default game (solve_fuel (S (emptyCount (board game))) game).

(** ** The validator *)

Definition checkFullBoard (board : Sudoku) : bool :=
  match getNextEmptyCoord board with
  | Some _ => false
  | None =>
      forallb (λ i,
        let row := getRowContents board (i, 0) in
        let col := getColumnContents board (0, i) in
        let sub := getSubGridContents board ((i * 3) mod 9, (i * 3) mod 9) in
        let rowAndCol := setIntersection (JSSet.from row) (JSSet.from col) in
        let andSub := setIntersection (JSSet.from sub) rowAndCol in
        let intersect := setIntersection (Some <$> ALL_NUMBERS) andSub in
        JSSet.size intersect =? 9) keys9
  end.

(** ** Presentation: parsing and printing

    The text of the file is a [string] of 8-bit characters, which is what
    the README asks for ("9 rows of exactly 9 ASCII characters"). *)

Inductive ParseError :=
  | NotNineLines      (* "File did not contain exactly 9 lines" *)
  | BadLineLength     (* "File contained a line without exactly 9 characters" *)
  | BadCharacter.     (* "File contained non-numeric, non-delimiter character" *)

(** [EOL] of [node:os] on a POSIX system. *)
Definition EOL : string := String (ascii_of_nat 10) EmptyString.

Definition DELIMITER : ascii := " "%char.

(** [s.split(sep)] for a non-empty separator: [cur] is the piece being read
    and [skip] counts the characters of a matched separator still to drop. *)
Fixpoint splitFrom (sep : string) (s : string) (skip : nat) (cur : string)
    : list string :=
  match s with
  | EmptyString => [cur]
  | String c s' =>
      match skip with
      | S k => splitFrom sep s' k cur
      | 0 =>
          if String.prefix sep s
          then cur :: splitFrom sep s' (String.length sep - 1) EmptyString
          else splitFrom sep s' 0 (cur ++ String c EmptyString)%string
      end
  end.

Definition split (sep : string) (s : string) : list string :=
  splitFrom sep s 0 EmptyString.

(** [Number.parseInt(char)] on a string of one character: [None] is [NaN]. *)
Definition parseInt (char : ascii) : option nat :=
  let code := nat_of_ascii char in
  if (48 <=? code) && (code <=? 57) then Some (code - 48) else None.

(** [xs.map(f)] where [f] may throw: the first exception wins. *)
Fixpoint mapE {E A B} (f : A → E + B) (xs : list A) : E + list B :=
  match xs with
  | [] => inr []
  | x :: xs' =>
      match f x with
      | inl e => inl e
      | inr y =>
          match mapE f xs' with
          | inl e => inl e
          | inr ys => inr (y :: ys)
          end
      end
  end.

Definition parseChar (char : ascii) : ParseError + Cell :=
  match parseInt char with
  | Some num => inr (Some num)
  | None =>
      if bool_decide (char = DELIMITER) then inr None
      else inl BadCharacter
  end.

Definition parseLine (line : string) : ParseError + Row :=
  if negb (String.length line =? 9) then inl BadLineLength
  else mapE parseChar (list_ascii_of_string line).

(** [parseGame], as a function of the text of the file. *)
Definition parseGame (content : string) : ParseError + Sudoku :=
  let lines := removelast (split EOL content) in
  if negb (length lines =? 9) then inl NotNineLines
  else mapE parseLine lines.

(** [n.toString()] *)
Definition toString (n : nat) : string := NilEmpty.string_of_uint (Nat.to_uint n).

(** What [prettyPrint] appends to [row] for the cell at [(i, j)]. *)
Definition token (board : Sudoku) (i j : Domain) : string :=
  match cellAt board i j with
  | Some None => "* "
  | Some (Some n) => (toString n ++ " ")%string
  | None => "undefined "
  end.

(** [prettyPrint], as the list of the lines it passes to [console.log]. *)
Definition prettyPrint (board : Sudoku) : list string :=
  (λ i, foldl (λ row j, (row ++ token board i j)%string) EmptyString keys9)
    <$> keys9.

(** The text that [console.log] writes for a list of lines. *)
Definition consoleText (lines : list string) : string :=
  foldr (λ line rest, (line ++ EOL ++ rest)%string) EmptyString lines.

(** [main] after [getBoard]: the lines it logs for a parsed board. *)
Definition mainOn (input : Sudoku) : list string :=
  ["Original board"%string] ++ prettyPrint input ++ ["-----------------"%string] ++
  let isBoardPreSolved := checkFullBoard input in
  if negb isBoardPreSolved then
    let solvedGame := solve (mkGame false input) in
    if negb (solved solvedGame) then ["UNSOLVABLE"%string]
    else ["SOLVED"%string] ++ prettyPrint (board solvedGame)
  else ["PRE-SOLVED"%string].

(** ** Vocabulary of the specification *)

Definition inDomain (c : Coord) : Prop := c.1 < 9 ∧ c.2 < 9.

Definition emptyAt (board : Sudoku) (c : Coord) : Prop :=
  cellAt board c.1 c.2 = Some None.

(** No cell of the 9x9 domain is empty. *)
Definition full (board : Sudoku) : Prop :=
  ∀ c, inDomain c → ¬ emptyAt board c.

(** Row, then column. *)
Definition lexLt (c c' : Coord) : Prop :=
  c.1 < c'.1 ∨ (c.1 = c'.1 ∧ c.2 < c'.2).

(** The 27 regions, as lists of coordinates. *)
Definition rowCoords (i : Domain) : list Coord := (λ j, (i, j)) <$> keys9.
Definition colCoords (j : Domain) : list Coord := (λ i, (i, j)) <$> keys9.
Definition subGridCoords (k : Domain) : list Coord :=
  (λ n, (k / 3 * 3 + n / 3, k mod 3 * 3 + n mod 3)) <$> keys9.

Definition regions : list (list Coord) :=
  (rowCoords <$> keys9) ++ (colCoords <$> keys9) ++ (subGridCoords <$> keys9).

Definition cellsOf (board : Sudoku) (R : list Coord) : list Cell :=
  (λ c : Coord, readCell board c.1 c.2) <$> R.

Definition digits : list Cell := Some <$> seq 1 9.

(** The cells of a region are the digits 1-9, each once. *)
Definition regionOk (board : Sudoku) (R : list Coord) : Prop :=
  cellsOf board R ≡ₚ digits.

Definition validSolution (board : Sudoku) : Prop :=
  ∀ R, R ∈ regions → regionOk board R.

(** [F] keeps every digit that [b] holds. *)
Definition agreesOnGivens (b F : Sudoku) : Prop :=
  ∀ i j d, cellAt b i j = Some (Some d) → cellAt F i j = Some (Some d).

(** [b] admits a valid completion of its empty cells. *)
Definition solvable (b : Sudoku) : Prop :=
  is_grid b ∧ ∃ S, is_grid S ∧ validSolution S ∧ agreesOnGivens b S.

(** [c'] lies in the row, the column or the sub-grid of [c]. *)
Definition sees (c c' : Coord) : Prop :=
  c'.1 = c.1 ∨ c'.2 = c.2 ∨ (c'.1 / 3 = c.1 / 3 ∧ c'.2 / 3 = c.2 / 3).

(** The digit at [c] is in 1-9 and occurs nowhere else in the regions of [c]. *)
Definition fitsAt (F : Sudoku) (c : Coord) : Prop :=
  ∃ d, cellAt F c.1 c.2 = Some (Some d) ∧ digit d ∧
       ∀ c', inDomain c' → c' ≠ c → sees c c' → cellAt F c'.1 c'.2 ≠ Some (Some d).

(** ** Definitions used by the proofs *)

(** The 81 coordinates of the board. *)
Definition allCoords : list Coord := i ← keys9; (λ j, (i, j)) <$> keys9.

(** The coordinates that [getOptionsForCoord] reads for [c]. *)
Definition peersOf (c : Coord) : list Coord :=
  rowCoords c.1 ++ colCoords c.2 ++ subGridCoords (c.1 / 3 * 3 + c.2 / 3).

Global Instance inDomain_dec c : Decision (inDomain c).
Proof. unfold inDomain. apply _. Defined.

Global Instance sees_dec c c' : Decision (sees c c').
Proof. unfold sees. apply _. Defined.

Global Instance emptyAt_dec b c : Decision (emptyAt b c).
Proof. unfold emptyAt. apply _. Defined.

Global Instance regionOk_dec b R : Decision (regionOk b R).
Proof. unfold regionOk. apply _. Defined.

(** What a successful search establishes about its result [F]. *)
Definition completes (b F : Sudoku) : Prop :=
  is_grid F ∧ full F ∧ agreesOnGivens b F ∧
  ∀ c, inDomain c → emptyAt b c → fitsAt F c.

(** The characters that [parseChar] lets through. *)
Definition accepted (char : ascii) : Prop :=
  48 ≤ nat_of_ascii char ≤ 57 ∨ char = DELIMITER.

(** The string holds no line break. *)
Fixpoint noEOL (s : string) : bool :=
  match s with
  | EmptyString => true
  | String c s' => negb (bool_decide (c = ascii_of_nat 10)) && noEOL s'
  end.

(** The digit that [b] holds at [c], if any, is in 1-9 and no other cell
    that [c] sees holds it. *)
Definition givenOk (b : Sudoku) (c : Coord) : Prop :=
  ∀ d, cellAt b c.1 c.2 = Some (Some d) →
       digit d ∧
       Forall (λ c', c' ≠ c → sees c c' → cellAt b c'.1 c'.2 ≠ Some (Some d))
              allCoords.

(** The givens of [b] are digits of 1-9 and do not conflict with each
    other. *)
Definition consistentGivens (b : Sudoku) : Prop := Forall (givenOk b) allCoords.

Global Instance givenOk_dec b c : Decision (givenOk b c).
Proof.
  unfold givenOk. destruct (cellAt b c.1 c.2) as [[d|]|].
  - destruct (decide (digit d ∧
        Forall (λ c', c' ≠ c → sees c c' → cellAt b c'.1 c'.2 ≠ Some (Some d))
               allCoords)) as [H|H].
    + left. by intros ? [= <-].
    + right. intros H'. by apply H, H'.
  - left. by intros ? [=].
  - left. by intros ? [=].
Defined.

(** [F] comes before [S], or is [S], when the cells are read row by row: at
    the first cell where they differ [F] holds the smaller digit. *)
Definition boardLe (F S : Sudoku) : Prop :=
  (∀ c, inDomain c → cellAt F c.1 c.2 = cellAt S c.1 c.2) ∨
  ∃ c d d', inDomain c ∧
            cellAt F c.1 c.2 = Some (Some d) ∧ cellAt S c.1 c.2 = Some (Some d') ∧
            d < d' ∧
            ∀ c', inDomain c' → lexLt c' c → cellAt F c'.1 c'.2 = cellAt S c'.1 c'.2.

(** [S] is a valid completion of [b]. *)
Definition completionOf (b S : Sudoku) : Prop :=
  is_grid S ∧ validSolution S ∧ agreesOnGivens b S.

(** The header that [main] logs before its verdict. *)
Definition mainHeader (input : Sudoku) : list string :=
  ["Original board"%string] ++ prettyPrint input ++ ["-----------------"%string].

(** A line that [parseLine] accepts. *)
Definition acceptedLine (line : string) : Prop :=
  String.length line = 9 ∧ Forall accepted (list_ascii_of_string line).

(** ** Example boards and files *)

(** A board written as rows of numbers, [0] standing for an empty cell. *)
Definition boardOf (rows : list (list nat)) : Sudoku :=
  (λ row : list nat, (λ n, if n =? 0 then None else Some n) <$> row) <$> rows.

Definition emptyBoard : Sudoku := replicate 9 (replicate 9 None).

Definition solvedBoard : Sudoku := boardOf
  [ [1;2;3; 4;5;6; 7;8;9];
    [4;5;6; 7;8;9; 1;2;3];
    [7;8;9; 1;2;3; 4;5;6];
    [2;3;4; 5;6;7; 8;9;1];
    [5;6;7; 8;9;1; 2;3;4];
    [8;9;1; 2;3;4; 5;6;7];
    [3;4;5; 6;7;8; 9;1;2];
    [6;7;8; 9;1;2; 3;4;5];
    [9;1;2; 3;4;5; 6;7;8] ].

(** Every row, every column and the three sub-grids on the diagonal hold
    1-9, but the top-middle sub-grid holds 5 twice. *)
Definition diagonalBoard : Sudoku := boardOf
  [ [3;2;1; 8;5;7; 9;6;4];
    [9;8;7; 5;6;4; 1;3;2];
    [6;5;4; 2;3;1; 7;9;8];
    [4;3;2; 9;1;8; 5;7;6];
    [1;9;8; 6;7;5; 2;4;3];
    [7;6;9; 3;4;2; 8;5;1];
    [2;7;5; 4;8;6; 3;1;9];
    [8;1;6; 7;9;3; 4;2;5];
    [5;4;3; 1;2;9; 6;8;7] ].

Definition onesBoard : Sudoku := replicate 9 (replicate 9 (Some 1)).

(** Two 5s in row 0, everything else empty. *)
Definition twoFivesBoard : Sudoku :=
  boardOf ([5;5;0; 0;0;0; 0;0;0] :: replicate 8 (replicate 9 0)).

(** Cell (0, 0) is empty and sees 1-8 in its row and 9 in its column. *)
Definition deadEndBoard : Sudoku :=
  boardOf ([0;1;2; 3;4;5; 6;7;8] :: [9;0;0; 0;0;0; 0;0;0]
           :: replicate 7 (replicate 9 0)).

(** Nine lines of nine characters, all spaces but a '0' at the start. *)
Definition zeroFile : string :=
  ("0        " ++ EOL ++ "         " ++ EOL ++ "         " ++ EOL ++
   "         " ++ EOL ++ "         " ++ EOL ++ "         " ++ EOL ++
   "         " ++ EOL ++ "         " ++ EOL ++ "         " ++ EOL)%string.

(** ** The solver over a store of arrays

    In the source a board is an array of references to row arrays, and
    [solve] works on [structuredClone]s of it.  Here the store is a list of
    objects, an address is an index into it, and allocation appends. *)

Module Heap.

Inductive object :=
  | ORow (cells : list (option nat))
  | OBoard (rows : list nat).

Abbreviation heap := (list object) (only parsing).

Record GameRef := mkGameRef { solvedH : bool; boardH : nat }.

Definition readRow (σ : heap) (r : nat) : option Row :=
  match σ !! r with
  | Some (ORow cells) => Some cells
  | _ => None
  end.

(** The board that the array at address [l] holds. *)
Definition readBoard (σ : heap) (l : nat) : option Sudoku :=
  match σ !! l with
  | Some (OBoard rows) => mapM (readRow σ) rows
  | _ => None
  end.

Fixpoint assoc (k : nat) (memo : list (nat * nat)) : option nat :=
  match memo with
  | [] => None
  | (k', v) :: memo' => if decide (k' = k) then Some v else assoc k memo'
  end.

(** The rows of a [structuredClone]: a row object met before is copied
    once, [memo] maps it to its copy. *)
Fixpoint cloneRows (σ : heap) (memo : list (nat * nat)) (rows : list nat)
    : option (heap * list nat) :=
  match rows with
  | [] => Some (σ, [])
  | r :: rows' =>
      match assoc r memo with
      | Some r' =>
          '(σ', copies) ← cloneRows σ memo rows';
          Some (σ', r' :: copies)
      | None =>
          cells ← readRow σ r;
          '(σ', copies) ← cloneRows (σ ++ [ORow cells]) ((r, length σ) :: memo) rows';
          Some (σ', length σ :: copies)
      end
  end.

(** [structuredClone(board)] *)
Definition structuredClone (σ : heap) (l : nat) : option (heap * nat) :=
  match σ !! l with
  | Some (OBoard rows) =>
      '(σ', copies) ← cloneRows σ [] rows;
      Some (σ' ++ [OBoard copies], length σ')
  | _ => None
  end.

(** [newBoard[next[0]][next[1]] = option], for an index inside the row. *)
Definition writeCell (σ : heap) (l : nat) (next : Coord) (opt : Numbers)
    : option heap :=
  match σ !! l with
  | Some (OBoard rows) =>
      r ← rows !! next.1;
      match σ !! r with
      | Some (ORow cells) =>
          Some (<[r := ORow (<[next.2 := Some opt]> cells)]> σ)
      | _ => None
      end
  | _ => None
  end.

Fixpoint tryOptionsH (rec : heap → GameRef → option (heap * GameRef))
    (σ : heap) (game : GameRef) (next : Coord) (options : list Numbers)
    : option (heap * GameRef) :=
  match options with
  | [] => Some (σ, game)
  | opt :: rest =>
      '(σ1, newBoard) ← structuredClone σ (boardH game);
      σ2 ← writeCell σ1 newBoard next opt;
      let newGame := mkGameRef false newBoard in
      '(σ3, finalGame) ← rec σ2 newGame;
      if solvedH finalGame then Some (σ3, finalGame)
      else tryOptionsH rec σ3 game next rest
  end.

Definition solveBodyH (rec : heap → GameRef → option (heap * GameRef))
    (σ : heap) (game : GameRef) : option (heap * GameRef) :=
  b ← readBoard σ (boardH game);
  match getNextEmptyCoord b with
  | None => Some (σ, mkGameRef true (boardH game))
  | Some next =>
      let options := getOptionsForCoord b next in
      if length options =? 0 then Some (σ, game)
      else tryOptionsH rec σ game next options
  end.

(** [solve] on the store; [None] when the depth bound is reached or an
    address does not hold what its type says. *)
Fixpoint solveH (fuel : nat) (σ : heap) (game : GameRef)
    : option (heap * GameRef) :=
  match fuel with
  | 0 => None
  | S fuel' => solveBodyH (solveH fuel') σ game
  end.

(** The array at [l] holds board [b], each row in an object of its own. *)
Definition boardAt (σ : heap) (l : nat) (b : Sudoku) : Prop :=
  ∃ rows, σ !! l = Some (OBoard rows) ∧ NoDup rows ∧
          Forall2 (λ r cells, σ !! r = Some (ORow cells)) rows b.

(** A store that holds [b] and nothing else; the board is at [length b]. *)
Definition heapOf (b : Sudoku) : heap :=
  (ORow <$> b) ++ [OBoard (seq 0 (length b))].

(** How a run on the store relates to the run of the pure function: the
    store only grows, the result holds the board of the pure result, and it
    is the input game itself unless the search succeeded. *)
Definition runsAs (σ : list object) (g : GameRef) (r : Game)
    (res : option (list object * GameRef)) : Prop :=
  ∃ ext g', res = Some (σ ++ ext, g') ∧
            solvedH g' = solved r ∧
            boardAt (σ ++ ext) (boardH g') (board r) ∧
            (g' = g ∨ (solvedH g' = true ∧ getNextEmptyCoord (board r) = None)).

End Heap.

(** * Properties *)

(** ** JS sets *)

Section jsset.
Context {A : Type} `{EqDecision A}.
Implicit Types (s xs : list A) (x y : A).

Lemma has_true s x : JSSet.has s x = true ↔ x ∈ s.
Proof. unfold JSSet.has. by rewrite bool_decide_eq_true. Qed.

Lemma has_false s x : JSSet.has s x = false ↔ x ∉ s.
Proof. unfold JSSet.has. by rewrite bool_decide_eq_false. Qed.

Lemma elem_of_add s x y : y ∈ JSSet.add s x ↔ y ∈ s ∨ y = x.
Proof.
  unfold JSSet.add. destruct (JSSet.has s x) eqn:E.
  - apply has_true in E. split; [auto|]. intros [?| ->]; done.
  - rewrite elem_of_app, list_elem_of_singleton. done.
Qed.

Lemma NoDup_add s x : NoDup s → NoDup (JSSet.add s x).
Proof.
  intros Hs. unfold JSSet.add. destruct (JSSet.has s x) eqn:E; [done|].
  apply has_false in E. apply NoDup_app. split_and!; [done| |apply NoDup_singleton].
  intros y Hy ->%list_elem_of_singleton. done.
Qed.

Lemma foldl_add_elem xs s y :
  y ∈ foldl JSSet.add s xs ↔ y ∈ s ∨ y ∈ xs.
Proof.
  revert s. induction xs as [|x xs IH]; intros s; simpl.
  - rewrite elem_of_nil. tauto.
  - rewrite IH, elem_of_add, elem_of_cons. tauto.
Qed.

Lemma foldl_add_NoDup xs s : NoDup s → NoDup (foldl JSSet.add s xs).
Proof.
  revert s. induction xs as [|x xs IH]; intros s Hs; simpl; [done|].
  by apply IH, NoDup_add.
Qed.

Lemma elem_of_from xs y : y ∈ JSSet.from xs ↔ y ∈ xs.
Proof. unfold JSSet.from. rewrite foldl_add_elem, elem_of_nil. tauto. Qed.

Lemma NoDup_from xs : NoDup (JSSet.from xs).
Proof. apply foldl_add_NoDup, NoDup_nil_2. Qed.

Lemma foldl_add_fresh xs s : NoDup (s ++ xs) → foldl JSSet.add s xs = s ++ xs.
Proof.
  revert s. induction xs as [|x xs IH]; intros s Hs; simpl.
  - by rewrite app_nil_r.
  - assert (JSSet.add s x = s ++ [x]) as ->.
    { unfold JSSet.add. destruct (JSSet.has s x) eqn:E; [|done].
      apply has_true in E. apply NoDup_app in Hs as (_ & Hs & _).
      exfalso. apply (Hs x E). left. }
    rewrite IH; rewrite <- (assoc_L (++)); done.
Qed.

(** On a list without duplicates [new Set] keeps the list as it is. *)
Lemma from_NoDup xs : NoDup xs → JSSet.from xs = xs.
Proof. intros. unfold JSSet.from. by rewrite foldl_add_fresh. Qed.

Lemma elem_of_setDifference (a b : list A) x :
  x ∈ setDifference a b ↔ x ∈ a ∧ x ∉ b.
Proof.
  unfold setDifference. rewrite elem_of_from, list_elem_of_filter, has_false. tauto.
Qed.

Lemma elem_of_setIntersection (a b : list A) x :
  x ∈ setIntersection a b ↔ x ∈ a ∧ x ∈ b.
Proof.
  unfold setIntersection. rewrite elem_of_from, list_elem_of_filter, has_true. tauto.
Qed.

Lemma setDifference_filter (a b : list A) :
  NoDup a → setDifference a b = filter (λ x, JSSet.has b x = false) a.
Proof. intros. unfold setDifference. by apply from_NoDup, NoDup_filter. Qed.

Lemma setIntersection_filter (a b : list A) :
  NoDup a → setIntersection a b = filter (λ x, JSSet.has b x = true) a.
Proof. intros. unfold setIntersection. by apply from_NoDup, NoDup_filter. Qed.
End jsset.

(** ** The 9x9 domain and its regions: finite facts, checked by evaluation *)

Lemma elem_of_allCoords c : c ∈ allCoords ↔ inDomain c.
Proof.
  destruct c as [i j]. unfold allCoords, inDomain, keys9. simpl fst; simpl snd.
  rewrite list_elem_of_bind. split.
  - intros (i' & Hj & Hi). apply list_elem_of_fmap in Hj as (j' & [= -> ->] & Hj).
    apply elem_of_seq in Hi, Hj. lia.
  - intros [Hi Hj]. exists i. split; [|apply elem_of_seq; lia].
    apply list_elem_of_fmap. exists j. split; [done|apply elem_of_seq; lia].
Qed.

Lemma forall_inDomain (P : Coord → Prop) :
  Forall P allCoords → ∀ c, inDomain c → P c.
Proof. rewrite Forall_forall. intros H c Hc. by apply H, elem_of_allCoords. Qed.

Lemma peersOf_sees_all :
  Forall (λ c, Forall (λ c', c' ∈ peersOf c ↔ sees c c') allCoords) allCoords.
Proof. apply (bool_decide_unpack _). vm_compute. reflexivity. Qed.

Lemma peersOf_inDomain_all :
  Forall (λ c, Forall inDomain (peersOf c)) allCoords.
Proof. apply (bool_decide_unpack _). vm_compute. reflexivity. Qed.

Lemma elem_of_peersOf c c' :
  inDomain c → (c' ∈ peersOf c ↔ inDomain c' ∧ sees c c').
Proof.
  intros Hc. split.
  - intros Hin.
    assert (inDomain c') as Hc'.
    { pose proof (forall_inDomain _ peersOf_inDomain_all c Hc) as H.
      rewrite Forall_forall in H. by apply H. }
    split; [done|].
    by apply (forall_inDomain _ (forall_inDomain _ peersOf_sees_all c Hc) c' Hc').
  - intros [Hc' Hs].
    by apply (forall_inDomain _ (forall_inDomain _ peersOf_sees_all c Hc) c' Hc').
Qed.

Lemma regions_shape :
  Forall (λ R : list Coord, length R = 9 ∧ NoDup R ∧ Forall inDomain R ∧
                 Forall (λ c, Forall (sees c) R) R) regions.
Proof. apply (bool_decide_unpack _). vm_compute. reflexivity. Qed.

Lemma sees_common_region_all :
  Forall (λ c, Forall (λ c', sees c c' →
     Exists (λ R : list Coord, c ∈ R ∧ c' ∈ R) regions) allCoords) allCoords.
Proof. apply (bool_decide_unpack _). vm_compute. reflexivity. Qed.

Lemma sees_common_region c c' :
  inDomain c → inDomain c' → sees c c' → ∃ R, R ∈ regions ∧ c ∈ R ∧ c' ∈ R.
Proof.
  intros Hc Hc' Hs.
  pose proof (forall_inDomain _ (forall_inDomain _ sees_common_region_all c Hc) c' Hc' Hs) as H.
  apply Exists_exists in H as (R & ? & ? & ?). eauto.
Qed.

Lemma sees_refl c : sees c c.
Proof. by left. Qed.

Lemma sees_sym c c' : sees c c' → sees c' c.
Proof. unfold sees. intros [?|[?|[? ?]]]; auto. Qed.

(** ** Reading a board *)

Ltac lt9 i :=
  destruct i as [|[|[|[|[|[|[|[|[|i]]]]]]]]]; [..| exfalso; lia].

Lemma list_tabulate {A} (d : A) (l : list A) :
  l = (λ j, default d (l !! j)) <$> seq 0 (length l).
Proof.
  apply list_eq. intros k. rewrite list_lookup_fmap.
  destruct (decide (k < length l)) as [Hk|Hk].
  - rewrite lookup_seq_lt by done. simpl.
    destruct (lookup_lt_is_Some_2 l k Hk) as [x ->]. done.
  - rewrite lookup_seq_ge by lia. simpl. apply lookup_ge_None_2. lia.
Qed.

Lemma readCell_default (b : Sudoku) i j :
  readCell b i j = default None (default [] (b !! i) !! j).
Proof. unfold readCell, cellAt. by destruct (b !! i). Qed.

Lemma readCell_Some (b : Sudoku) i j d :
  readCell b i j = Some d ↔ cellAt b i j = Some (Some d).
Proof.
  unfold readCell. destruct (cellAt b i j) as [[?|]|]; simpl;
    split; intros H; (done || congruence).
Qed.

Lemma is_grid_row (b : Sudoku) i :
  is_grid b → i < 9 → ∃ row : Row, b !! i = Some row ∧ length row = 9.
Proof.
  intros [Hlen Hrows] Hi.
  destruct (lookup_lt_is_Some_2 b i) as [row Hrow]; [lia|].
  exists row. split; [done|]. by eapply (Forall_lookup_1 _ _ _ _ Hrows Hrow).
Qed.

Lemma is_grid_cellAt (b : Sudoku) c :
  is_grid b → inDomain c → ∃ x : Cell, cellAt b c.1 c.2 = Some x.
Proof.
  intros Hg [Hi Hj]. destruct (is_grid_row b c.1 Hg Hi) as (row & Hrow & Hlen).
  destruct (lookup_lt_is_Some_2 row c.2) as [x Hx]; [lia|].
  exists x. unfold cellAt. by rewrite Hrow.
Qed.

Lemma is_gridb_true (b : Sudoku) : is_gridb b = true ↔ is_grid b.
Proof.
  unfold is_gridb, is_grid. rewrite andb_true_iff, Nat.eqb_eq, forallb_forall.
  rewrite Forall_forall. setoid_rewrite Nat.eqb_eq.
  setoid_rewrite <- list_elem_of_In. done.
Qed.

Lemma is_boardb_true (b : Sudoku) : is_boardb b = true ↔ is_board b.
Proof.
  unfold is_boardb, is_board. rewrite andb_true_iff, is_gridb_true.
  apply and_iff_compat_l.
  rewrite forallb_forall, Forall_forall. setoid_rewrite <- list_elem_of_In.
  apply forall_proper; intros row. apply forall_proper; intros _.
  rewrite forallb_forall, Forall_forall. setoid_rewrite <- list_elem_of_In.
  apply forall_proper; intros c. apply forall_proper; intros _.
  destruct c as [n|]; [|done]. cbn [from_option].
  unfold digit. rewrite andb_true_iff, !Nat.leb_le. done.
Qed.

Lemma elem_of_cellsOf (b : Sudoku) R (x : Cell) :
  x ∈ cellsOf b R ↔ ∃ c, c ∈ R ∧ readCell b c.1 c.2 = x.
Proof.
  unfold cellsOf. rewrite list_elem_of_fmap.
  split; intros (c & ? & ?); exists c; done.
Qed.

Lemma cellsOf_app (b : Sudoku) R1 R2 :
  cellsOf b (R1 ++ R2) = cellsOf b R1 ++ cellsOf b R2.
Proof. unfold cellsOf. apply fmap_app. Qed.

Lemma getRowContents_cells (b : Sudoku) c :
  is_grid b → c.1 < 9 → getRowContents b c = cellsOf b (rowCoords c.1).
Proof.
  intros Hg Hi. destruct (is_grid_row b c.1 Hg Hi) as (row & Hrow & Hlen).
  unfold getRowContents, cellsOf, rowCoords, keys9. rewrite Hrow. simpl default.
  rewrite <- list_fmap_compose.
  rewrite (list_tabulate None row) at 1. rewrite Hlen.
  apply list_fmap_ext. intros _ j _. simpl.
  by rewrite readCell_default, Hrow.
Qed.

Lemma transpose_lookup (b : Sudoku) j :
  is_grid b → j < 9 →
  transpose b !! j = Some ((λ row : Row, default None (row !! j)) <$> b).
Proof.
  intros Hg Hj. destruct (is_grid_row b 0 Hg) as (row & Hrow & Hlen); [lia|].
  unfold transpose. rewrite list_lookup_imap, Hrow. simpl default.
  destruct (lookup_lt_is_Some_2 row j) as [x ->]; [lia|]. done.
Qed.

Lemma getColumnContents_cells (b : Sudoku) c :
  is_grid b → c.2 < 9 → getColumnContents b c = cellsOf b (colCoords c.2).
Proof.
  intros Hg Hj. unfold getColumnContents. rewrite transpose_lookup by done.
  simpl default. unfold cellsOf, colCoords, keys9.
  rewrite <- list_fmap_compose.
  rewrite (list_tabulate [] b) at 1. destruct Hg as [-> _].
  rewrite <- list_fmap_compose.
  apply list_fmap_ext. intros _ i _. simpl.
  by rewrite readCell_default.
Qed.

Lemma getSubGridContents_cells (b : Sudoku) c :
  inDomain c →
  getSubGridContents b c = cellsOf b (subGridCoords (c.1 / 3 * 3 + c.2 / 3)).
Proof.
  destruct c as [i j]. intros [Hi Hj]. simpl in Hi, Hj.
  lt9 i; lt9 j; reflexivity.
Qed.

Lemma contents_cells (b : Sudoku) c :
  is_grid b → inDomain c →
  getRowContents b c ++ getColumnContents b c ++ getSubGridContents b c
  = cellsOf b (peersOf c).
Proof.
  intros Hg Hc. unfold peersOf. rewrite !cellsOf_app.
  destruct Hc as [Hi Hj].
  rewrite (getRowContents_cells b c), (getColumnContents_cells b c),
    (getSubGridContents_cells b c); done.
Qed.

Lemma elem_of_compressContents (l : list Cell) d :
  d ∈ compressContents l ↔ d ≠ 0 ∧ Some d ∈ l.
Proof.
  unfold compressContents.
  cut (∀ s : list nat,
    d ∈ foldl (λ contents (item : Cell),
                 match item with
                 | Some n => if truthy item then JSSet.add contents n else contents
                 | None => contents
                 end) s l ↔ d ∈ s ∨ (d ≠ 0 ∧ Some d ∈ l)).
  { intros H. rewrite H, elem_of_nil. tauto. }
  induction l as [|item l IH]; intros s; simpl.
  - rewrite elem_of_nil. tauto.
  - rewrite IH, elem_of_cons. destruct item as [n|]; simpl.
    + destruct (Nat.eqb_spec n 0) as [->|Hn]; simpl.
      * split; [tauto|]. intros [?|[? [[=]|?]]]; [tauto|congruence|tauto].
      * rewrite elem_of_add. split.
        -- intros [[?| ->]|?]; [tauto| |tauto]. right. split; [done|by left].
        -- intros [?|[? [[= ->]|?]]]; tauto.
    + split; [tauto|]. intros [?|[? [[=]|?]]]; tauto.
Qed.

Lemma ALL_NUMBERS_eq : ALL_NUMBERS = seq 1 9.
Proof. reflexivity. Qed.

Lemma getOptionsForCoord_filter (b : Sudoku) c :
  getOptionsForCoord b c =
  filter (λ x, JSSet.has (compressContents
     (getRowContents b c ++ getColumnContents b c ++ getSubGridContents b c)) x = false)
     (seq 1 9).
Proof.
  unfold getOptionsForCoord. rewrite setDifference_filter; [done|].
  rewrite ALL_NUMBERS_eq. apply NoDup_seq.
Qed.

(** The candidates of a cell are the digits that none of the cells it sees
    holds. *)
Lemma elem_of_getOptionsForCoord (b : Sudoku) c d :
  is_grid b → inDomain c →
  d ∈ getOptionsForCoord b c ↔
  digit d ∧ ∀ c', inDomain c' → sees c c' → cellAt b c'.1 c'.2 ≠ Some (Some d).
Proof.
  intros Hg Hc. rewrite getOptionsForCoord_filter, list_elem_of_filter, has_false.
  rewrite elem_of_compressContents, contents_cells, elem_of_cellsOf by done.
  rewrite elem_of_seq. unfold digit.
  setoid_rewrite readCell_Some. setoid_rewrite (elem_of_peersOf c _ Hc).
  split.
  - intros [Hn Hd]. split; [lia|]. intros c' Hc' Hs Hcell.
    apply Hn. split; [lia|]. eauto.
  - intros [Hd Hn]. split; [|lia]. intros [_ (c' & [Hc' Hs] & Hcell)].
    by apply (Hn c').
Qed.

(** ** The first empty cell *)

Lemma scanRow_seq (b : Sudoku) i a n :
  match scanRow b i (seq a n) with
  | Some c => ∃ j, c = (i, j) ∧ a ≤ j < a + n ∧ cellAt b i j = Some None ∧
                   ∀ j', a ≤ j' < j → cellAt b i j' ≠ Some None
  | None => ∀ j, a ≤ j < a + n → cellAt b i j ≠ Some None
  end.
Proof.
  revert a. induction n as [|n IH]; intros a; simpl.
  - intros j Hj. lia.
  - case_bool_decide as Hnull.
    + exists a. split_and!; [done|lia|lia|done|]. intros j' Hj'. lia.
    + specialize (IH (S a)). destruct (scanRow b i (seq (S a) n)) as [c|].
      * destruct IH as (j & -> & Hj & Hj0 & Hbefore). exists j.
        split_and!; [done|lia|lia|done|]. intros j' Hj'.
        destruct (decide (j' = a)) as [->|]; [done|]. apply Hbefore. lia.
      * intros j Hj. destruct (decide (j = a)) as [->|]; [done|]. apply IH. lia.
Qed.

Lemma scanRows_seq (b : Sudoku) a n :
  match scanRows b (seq a n) with
  | Some c => (a ≤ c.1 < a + n ∧ c.2 < 9) ∧ cellAt b c.1 c.2 = Some None ∧
              ∀ i' j', a ≤ i' → j' < 9 → lexLt (i', j') c → cellAt b i' j' ≠ Some None
  | None => ∀ i j, a ≤ i < a + n → j < 9 → cellAt b i j ≠ Some None
  end.
Proof.
  revert a. induction n as [|n IH]; intros a.
  - intros i j Hi. lia.
  - rewrite <- cons_seq. cbn [scanRows].
    pose proof (scanRow_seq b a 0 9) as Hrow. fold keys9 in Hrow.
    destruct (scanRow b a keys9) as [c|].
    + destruct Hrow as (j & -> & Hj & Hnull & Hbefore). simpl.
      split_and!; [lia|lia|lia|done|].
      intros i' j' Hi' Hj' [Hlt|[Heq Hlt]]; simpl in *; [lia|].
      subst i'. apply Hbefore. lia.
    + specialize (IH (S a)). destruct (scanRows b (seq (S a) n)) as [c|].
      * destruct IH as ((Hi & Hj) & Hnull & Hbefore).
        split_and!; [lia|lia|lia|done|].
        intros i' j' Hi' Hj' Hlt. destruct (decide (i' = a)) as [->|].
        -- apply Hrow. lia.
        -- apply Hbefore; [lia|done|done].
      * intros i j Hi Hj. destruct (decide (i = a)) as [->|].
        -- apply Hrow. lia.
        -- apply IH; [lia|done].
Qed.

Lemma getNextEmptyCoord_Some (b : Sudoku) c :
  getNextEmptyCoord b = Some c →
  inDomain c ∧ emptyAt b c ∧ ∀ c', inDomain c' → lexLt c' c → ¬ emptyAt b c'.
Proof.
  unfold getNextEmptyCoord, keys9. pose proof (scanRows_seq b 0 9) as H.
  intros Heq. rewrite Heq in H. destruct H as ((Hi & Hj) & Hnull & Hbefore).
  split_and!; [split; lia|done|].
  intros [i' j'] [_ Hj'] Hlt. apply Hbefore; [lia|done|done].
Qed.

Lemma getNextEmptyCoord_None (b : Sudoku) :
  getNextEmptyCoord b = None ↔ full b.
Proof.
  unfold getNextEmptyCoord, keys9. pose proof (scanRows_seq b 0 9) as H. split.
  - intros Heq. rewrite Heq in H. intros [i j] [Hi Hj]. apply H; simpl in *; [lia|done].
  - intros Hfull. destruct (scanRows b (seq 0 9)) as [c|]; [|done].
    destruct H as ((Hi & Hj) & Hnull & _). exfalso.
    apply (Hfull c); [split; lia|done].
Qed.

Lemma lexLt_total c c' : lexLt c c' ∨ c = c' ∨ lexLt c' c.
Proof.
  destruct c as [i j], c' as [i' j']. unfold lexLt. simpl.
  destruct (lt_eq_lt_dec i i') as [[?| ->]|?]; [auto| |auto].
  destruct (lt_eq_lt_dec j j') as [[?| ->]|?]; auto.
Qed.

(** C10: [getNextEmptyCoord] returns the smallest empty coordinate in
    row-then-column order, and [null] (here [None]) exactly when no cell of
    the board is empty. *)
Theorem getNextEmptyCoord_spec (b : Sudoku) :
  (∀ c, getNextEmptyCoord b = Some c ↔
        inDomain c ∧ emptyAt b c ∧
        ∀ c', inDomain c' → emptyAt b c' → ¬ lexLt c' c) ∧
  (getNextEmptyCoord b = None ↔ ∀ c, inDomain c → ¬ emptyAt b c).
Proof.
  split; [|apply getNextEmptyCoord_None].
  intros c. split.
  - intros (Hc & He & Hmin)%getNextEmptyCoord_Some. split_and!; [done..|].
    intros c' Hc' He' Hlt. by apply (Hmin c').
  - intros (Hc & He & Hmin).
    destruct (getNextEmptyCoord b) as [c0|] eqn:Hnext.
    + apply getNextEmptyCoord_Some in Hnext as (Hc0 & He0 & Hmin0).
      destruct (lexLt_total c c0) as [Hlt|[->|Hlt]]; [|done|].
      * exfalso. by apply (Hmin0 c).
      * exfalso. by apply (Hmin c0).
    + apply getNextEmptyCoord_None in Hnext. exfalso. by apply (Hnext c).
Qed.

(** ** Placing a digit *)

Lemma emptyAt_lookup (b : Sudoku) c :
  emptyAt b c → ∃ row : Row, b !! c.1 = Some row ∧ row !! c.2 = Some None.
Proof.
  unfold emptyAt, cellAt. destruct (b !! c.1) as [row|]; simpl; [|done]. eauto.
Qed.

Lemma cellAt_place_eq (b : Sudoku) c d (x : Cell) :
  cellAt b c.1 c.2 = Some x → cellAt (place b c d) c.1 c.2 = Some (Some d).
Proof.
  unfold cellAt, place. rewrite list_lookup_alter_eq.
  destruct (b !! c.1) as [row|]; simpl; [|done].
  intros Hx%lookup_lt_Some. by apply list_lookup_insert_eq.
Qed.

Lemma cellAt_place_ne (b : Sudoku) c d i j :
  (i, j) ≠ c → cellAt (place b c d) i j = cellAt b i j.
Proof.
  intros Hne. unfold cellAt, place. destruct (decide (c.1 = i)) as [<-|Hi].
  - rewrite list_lookup_alter_eq. destruct (b !! c.1) as [row|]; simpl; [|done].
    apply list_lookup_insert_ne. intros <-. apply Hne. by destruct c.
  - by rewrite list_lookup_alter_ne.
Qed.

Lemma place_is_grid (b : Sudoku) c d : is_grid b → is_grid (place b c d).
Proof.
  intros [Hlen Hrows]. split; unfold place.
  - by rewrite length_alter.
  - apply Forall_alter; [done|]. intros row _ Hrow. by rewrite length_insert.
Qed.

(** Filling an empty cell leaves one empty cell fewer. *)
Lemma emptyCount_place (b : Sudoku) c d :
  emptyAt b c → S (emptyCount (place b c d)) = emptyCount b.
Proof.
  intros (row & Hrow & Hcell)%emptyAt_lookup.
  apply list_elem_of_split_length in Hrow as (l1 & l2 & -> & Hi).
  apply list_elem_of_split_length in Hcell as (r1 & r2 & -> & Hj).
  unfold place. rewrite Hi, Hj.
  replace (length l1) with (length l1 + 0) by lia. rewrite alter_app_r. simpl.
  replace (length r1) with (length r1 + 0) by lia. rewrite insert_app_r. simpl.
  unfold emptyCount. rewrite !concat_app, !concat_cons, !filter_app, !length_app.
  rewrite (filter_cons_True _ None) by done.
  rewrite (filter_cons_False _ (Some d)) by done. simpl. lia.
Qed.

Lemma emptyCount_grid (b : Sudoku) : is_grid b → emptyCount b ≤ 81.
Proof.
  intros [Hlen Hrows]. unfold emptyCount.
  etransitivity; [apply length_filter|].
  assert (length (concat b) = length b * 9) as ->; [|lia].
  clear Hlen. induction Hrows as [|row b Hrow _ IH]; simpl; [done|].
  rewrite length_app. lia.
Qed.

(** ** Termination of the solver *)

Lemma tryOptions_is_Some rec game next options :
  (∀ o, o ∈ options → is_Some (rec (mkGame false (place (board game) next o)))) →
  is_Some (tryOptions rec game next options).
Proof.
  induction options as [|o rest IH]; intros Hrec; simpl; [done|].
  destruct (Hrec o) as [fg ->]; [left|].
  destruct (solved fg); [done|]. apply IH. intros o' Ho'. apply Hrec. by right.
Qed.

Lemma solve_fuel_is_Some fuel game :
  emptyCount (board game) < fuel → is_Some (solve_fuel fuel game).
Proof.
  revert game. induction fuel as [|fuel IH]; intros game Hfuel; [lia|].
  simpl. unfold solveBody.
  destruct (getNextEmptyCoord (board game)) as [next|] eqn:Hnext; [|done].
  destruct (length _ =? 0); [done|].
  apply tryOptions_is_Some. intros o _. apply IH. simpl.
  apply getNextEmptyCoord_Some in Hnext as (_ & Hempty & _).
  pose proof (emptyCount_place (board game) next o Hempty). lia.
Qed.

Lemma tryOptions_mono (rec rec' : Game → option Game) game next options r :
  (∀ g r, rec g = Some r → rec' g = Some r) →
  tryOptions rec game next options = Some r →
  tryOptions rec' game next options = Some r.
Proof.
  intros Hrec. induction options as [|o rest IH]; simpl; [done|].
  destruct (rec _) as [fg|] eqn:Hfg; [|done].
  rewrite (Hrec _ _ Hfg). destruct (solved fg); auto.
Qed.

Lemma solveBody_mono (rec rec' : Game → option Game) game r :
  (∀ g r, rec g = Some r → rec' g = Some r) →
  solveBody rec game = Some r → solveBody rec' game = Some r.
Proof.
  intros Hrec. unfold solveBody. destruct (getNextEmptyCoord _); [|done].
  destruct (length _ =? 0); [done|]. by apply tryOptions_mono.
Qed.

Lemma solve_fuel_mono fuel fuel' game r :
  solve_fuel fuel game = Some r → fuel ≤ fuel' → solve_fuel fuel' game = Some r.
Proof.
  revert fuel' game r. induction fuel as [|fuel IH]; intros fuel' game r; [done|].
  destruct fuel' as [|fuel']; [lia|]. simpl. intros Hr Hle.
  eapply solveBody_mono; [|done]. intros g r' Hg. apply IH; [done|lia].
Qed.

(** Any bound that is not reached gives the result of [solve]. *)
Lemma solve_fuel_solve fuel game r :
  solve_fuel fuel game = Some r → solve game = r.
Proof.
  intros Hr. unfold solve.
  destruct (solve_fuel_is_Some (S (emptyCount (board game))) game) as [r' Hr']; [lia|].
  rewrite Hr'. simpl.
  pose proof (solve_fuel_mono _ (fuel + S (emptyCount (board game))) _ _ Hr) as H1.
  pose proof (solve_fuel_mono _ (fuel + S (emptyCount (board game))) _ _ Hr') as H2.
  rewrite H1 in H2 by lia. injection H2 as ->; [done|lia].
Qed.

Lemma solve_fuel_enough fuel game :
  emptyCount (board game) < fuel → solve_fuel fuel game = Some (solve game).
Proof.
  intros [r Hr]%solve_fuel_is_Some. by rewrite (solve_fuel_solve _ _ _ Hr).
Qed.

(** [solve] satisfies the recursive equation of the source. *)
Lemma solve_unfold game :
  solveBody (λ g, Some (solve g)) game = Some (solve game).
Proof.
  pose proof (solve_fuel_enough (S (S (emptyCount (board game)))) game) as H.
  cbn [solve_fuel] in H. eapply solveBody_mono; [|apply H; lia].
  intros g r Hg. by rewrite (solve_fuel_solve (S (emptyCount (board game))) _ _ Hg).
Qed.

(** C7: [solve] terminates on every board.  A recursive call is made on a
    board with exactly one empty cell fewer, a 9x9 board has at most 81 empty
    cells, so any depth bound above the number of empty cells is never
    reached: 81 nested calls below the first one always suffice. *)
Theorem solve_terminates (game : Game) :
  is_grid (board game) →
  emptyCount (board game) ≤ 81 ∧
  (∀ next option, getNextEmptyCoord (board game) = Some next →
     is_grid (place (board game) next option) ∧
     S (emptyCount (place (board game) next option)) = emptyCount (board game)) ∧
  (∀ fuel, emptyCount (board game) < fuel →
     solve_fuel fuel game = Some (solve game)) ∧
  solve_fuel 82 game = Some (solve game).
Proof.
  intros Hg. pose proof (emptyCount_grid _ Hg) as Hle. split_and!.
  - done.
  - intros next o (_ & Hempty & _)%getNextEmptyCoord_Some. split.
    + by apply place_is_grid.
    + by apply emptyCount_place.
  - intros fuel Hfuel. by apply solve_fuel_enough.
  - apply solve_fuel_enough. lia.
Qed.

(** ** Valid solutions, cell by cell *)

Lemma NoDup_digits : NoDup digits.
Proof. apply (bool_decide_unpack _). vm_compute. reflexivity. Qed.

Lemma elem_of_digits (x : Cell) : x ∈ digits ↔ ∃ d, x = Some d ∧ digit d.
Proof.
  unfold digits, digit. rewrite list_elem_of_fmap. setoid_rewrite elem_of_seq.
  split; intros (d & ? & ?); exists d; split; (done || lia).
Qed.

Lemma region_facts R :
  R ∈ regions →
  length R = 9 ∧ NoDup R ∧ (∀ c, c ∈ R → inDomain c) ∧
  (∀ c c', c ∈ R → c' ∈ R → sees c c').
Proof.
  intros HR. pose proof regions_shape as H. rewrite Forall_forall in H.
  destruct (H R HR) as (Hlen & Hnd & Hdom & Hsees). split_and!; [done..| |].
  - by apply Forall_forall.
  - intros c c' Hc Hc'. rewrite Forall_forall in Hsees.
    specialize (Hsees c Hc). rewrite Forall_forall in Hsees. by apply Hsees.
Qed.

Lemma NoDup_fmap_eq {A B} (f : A → B) (l : list A) x y :
  NoDup (f <$> l) → x ∈ l → y ∈ l → f x = f y → x = y.
Proof.
  induction l as [|a l IH]; simpl; [by intros _ ?%elem_of_nil|].
  rewrite NoDup_cons. intros [Ha Hnd] Hx Hy Heq.
  apply elem_of_cons in Hx as [->|Hx]; apply elem_of_cons in Hy as [->|Hy].
  - done.
  - exfalso. apply Ha. rewrite Heq. by apply list_elem_of_fmap_2.
  - exfalso. apply Ha. rewrite <- Heq. by apply list_elem_of_fmap_2.
  - by apply IH.
Qed.

(** A region is a permutation of 1-9 as soon as every digit occurs in it. *)
Lemma regionOk_iff (b : Sudoku) R :
  length R = 9 →
  regionOk b R ↔ ∀ d, digit d → Some d ∈ cellsOf b R.
Proof.
  intros Hlen. unfold regionOk. split.
  - intros Hp d Hd. rewrite Hp. apply elem_of_digits. eauto.
  - intros Hall. symmetry. apply submseteq_length_Permutation.
    + apply NoDup_submseteq; [apply NoDup_digits|].
      intros x (d & -> & Hd)%elem_of_digits. by apply Hall.
    + unfold cellsOf. rewrite length_fmap, Hlen. done.
Qed.

Lemma valid_fits (S : Sudoku) c :
  validSolution S → inDomain c → fitsAt S c.
Proof.
  intros Hv Hc.
  destruct (sees_common_region c c Hc Hc (sees_refl c)) as (R & HR & HcR & _).
  assert (readCell S c.1 c.2 ∈ digits) as Hd.
  { rewrite <- (Hv R HR). apply elem_of_cellsOf. eauto. }
  apply elem_of_digits in Hd as (d & Hcell & Hd).
  exists d. split_and!; [by apply readCell_Some|done|].
  intros c' Hc' Hne Hs Hcell'.
  destruct (sees_common_region c c' Hc Hc' Hs) as (R' & HR' & HcR' & Hc'R').
  apply Hne. apply (NoDup_fmap_eq (λ c : Coord, readCell S c.1 c.2) R'); [|done..|].
  - fold (cellsOf S R'). rewrite (Hv R' HR'). apply NoDup_digits.
  - apply readCell_Some in Hcell'. congruence.
Qed.

Lemma fits_regionOk (F : Sudoku) R :
  R ∈ regions → (∀ c, c ∈ R → fitsAt F c) → regionOk F R.
Proof.
  intros HR Hfit. destruct (region_facts R HR) as (Hlen & Hnd & Hdom & Hsees).
  apply submseteq_length_Permutation.
  - apply NoDup_submseteq.
    + apply NoDup_fmap_2_strong; [|done]. intros c c' Hc Hc' Heq.
      destruct (decide (c = c')) as [|Hne]; [done|]. exfalso.
      destruct (Hfit c Hc) as (d & Hcell & _ & Hother).
      apply (Hother c'); [by apply Hdom|done|by apply Hsees|].
      apply readCell_Some. rewrite <- Heq. by apply readCell_Some.
    + intros x (c & Hc & <-)%elem_of_cellsOf.
      destruct (Hfit c Hc) as (d & Hcell & Hd & _).
      apply readCell_Some in Hcell. rewrite Hcell. apply elem_of_digits. eauto.
  - unfold cellsOf. rewrite length_fmap, Hlen. done.
Qed.

Lemma fits_valid (F : Sudoku) :
  (∀ c, inDomain c → fitsAt F c) → validSolution F.
Proof.
  intros Hfit R HR. apply fits_regionOk; [done|].
  intros c Hc. apply Hfit. by apply (region_facts R HR).
Qed.

Lemma fits_full (F : Sudoku) : (∀ c, inDomain c → fitsAt F c) → full F.
Proof.
  intros Hfit c Hc He. destruct (Hfit c Hc) as (d & Hcell & _).
  unfold emptyAt in He. congruence.
Qed.

(** ** Soundness of the search *)

Lemma completes_place (b : Sudoku) next o F :
  is_grid b → inDomain next → emptyAt b next →
  o ∈ getOptionsForCoord b next →
  completes (place b next o) F → completes b F.
Proof.
  intros Hg Hnext Hempty Ho (HgF & Hfull & Hagree & Hfits).
  apply elem_of_getOptionsForCoord in Ho as [Hdig Hfree]; [|done..].
  assert (cellAt F next.1 next.2 = Some (Some o)) as HFnext.
  { apply Hagree. by eapply cellAt_place_eq. }
  split_and!; [done..| |].
  - intros i j d Hd. apply Hagree. rewrite cellAt_place_ne; [done|].
    intros <-. unfold emptyAt in Hempty. simpl in Hempty. congruence.
  - intros c Hc Hc_empty. destruct (decide (c = next)) as [->|Hne].
    + exists o. split_and!; [done..|]. intros c' Hc' Hne' Hsees HFc'.
      destruct (is_grid_cellAt b c' Hg Hc') as [[d'|] Hbc'].
      * assert (cellAt F c'.1 c'.2 = Some (Some d')) as HF'.
        { apply Hagree. rewrite cellAt_place_ne; [done|]. by destruct c'. }
        assert (d' = o) as -> by congruence. by apply (Hfree c').
      * destruct (Hfits c') as (d' & Hd' & _ & Hother); [done| |].
        { unfold emptyAt. rewrite cellAt_place_ne; [done|]. by destruct c'. }
        assert (d' = o) as -> by congruence.
        apply (Hother next); [done|done|by apply sees_sym|done].
    + apply Hfits; [done|]. unfold emptyAt. rewrite cellAt_place_ne; [done|].
      by destruct c.
Qed.

Lemma tryOptions_sound rec (b : Sudoku) next options r :
  is_grid b → inDomain next → emptyAt b next →
  (∀ o, o ∈ options → o ∈ getOptionsForCoord b next) →
  (∀ o r, rec (mkGame false (place b next o)) = Some r → solved r = true →
          completes (place b next o) (board r)) →
  tryOptions rec (mkGame false b) next options = Some r →
  solved r = true → completes b (board r).
Proof.
  intros Hg Hnext Hempty Hopts Hrec.
  induction options as [|o rest IH]; simpl.
  - intros [= <-]. done.
  - destruct (rec _) as [fg|] eqn:Hfg; [|done].
    destruct (solved fg) eqn:Hs.
    + intros [= <-] _. apply (completes_place b next o); [done..| |].
      * apply Hopts. left.
      * by apply Hrec.
    + apply IH. intros o' Ho'. apply Hopts. by right.
Qed.

Lemma solve_fuel_sound fuel (b : Sudoku) r :
  is_grid b → solve_fuel fuel (mkGame false b) = Some r → solved r = true →
  completes b (board r).
Proof.
  revert b r. induction fuel as [|fuel IH]; intros b r Hg; [done|].
  simpl. unfold solveBody. simpl board.
  destruct (getNextEmptyCoord b) as [next|] eqn:Hnext.
  - apply getNextEmptyCoord_Some in Hnext as (Hdom & Hempty & _).
    destruct (length _ =? 0); [by intros [= <-]|].
    apply tryOptions_sound; [done..|].
    intros o r' Hr' Hs. apply IH; [by apply place_is_grid|done..].
  - intros [= <-] _. simpl. apply getNextEmptyCoord_None in Hnext.
    split_and!; [done|done|by intros i j d|].
    intros c Hc He. by destruct (Hnext c).
Qed.

(** ** Completeness of the search *)

Lemma tryOptions_complete rec game next options v :
  v ∈ options →
  (∀ o, o ∈ options → is_Some (rec (mkGame false (place (board game) next o)))) →
  (∃ F, rec (mkGame false (place (board game) next v)) = Some (mkGame true F)) →
  ∃ F, tryOptions rec game next options = Some (mkGame true F).
Proof.
  intros Hv Htotal [F HF]. induction options as [|o rest IH]; simpl.
  - by apply elem_of_nil in Hv.
  - destruct (Htotal o) as [fg Hfg]; [left|]. rewrite Hfg.
    destruct fg as [[] F']; simpl; [eauto|].
    apply IH.
    + apply elem_of_cons in Hv as [->|Hv]; [congruence|done].
    + intros o' Ho'. apply Htotal. by right.
Qed.

Lemma solve_fuel_complete fuel (b S : Sudoku) :
  is_grid b → emptyCount b < fuel →
  validSolution S → agreesOnGivens b S →
  ∃ F, solve_fuel fuel (mkGame false b) = Some (mkGame true F).
Proof.
  revert b. induction fuel as [|fuel IH]; intros b Hg Hfuel Hv Hagree; [lia|].
  simpl. unfold solveBody. simpl board.
  destruct (getNextEmptyCoord b) as [next|] eqn:Hnext; [|eauto].
  apply getNextEmptyCoord_Some in Hnext as (Hdom & Hempty & _).
  pose proof (emptyCount_place b next) as Hcount.
  destruct (valid_fits S next Hv Hdom) as (v & HSnext & Hdig & Hother).
  assert (v ∈ getOptionsForCoord b next) as Hvin.
  { apply elem_of_getOptionsForCoord; [done..|]. split; [done|].
    intros c' Hc' Hsees Hbc'. destruct (decide (c' = next)) as [->|Hne].
    - unfold emptyAt in Hempty. congruence.
    - apply (Hother c'); [done..|]. by apply Hagree. }
  destruct (getOptionsForCoord b next) as [|o0 rest] eqn:Hopts.
  { by apply elem_of_nil in Hvin. }
  simpl length. simpl Nat.eqb. cbv iota.
  apply (tryOptions_complete _ _ _ _ v); [done| |].
  - intros o _. apply solve_fuel_is_Some. simpl.
    specialize (Hcount o Hempty). lia.
  - simpl board. apply IH.
    + by apply place_is_grid.
    + specialize (Hcount v Hempty). lia.
    + done.
    + intros i j d. destruct (decide ((i, j) = next)) as [<-|Hne].
      * erewrite (cellAt_place_eq b (i, j)) by done. by intros [= <-].
      * rewrite cellAt_place_ne by done. apply Hagree.
Qed.

(** ** The validator *)

Lemma length_filter_eq {A} (P : A → Prop) `{∀ x, Decision (P x)} (l : list A) :
  length (filter P l) = length l ↔ Forall P l.
Proof.
  induction l as [|x l IH]; [by split|].
  rewrite filter_cons. destruct (decide (P x)) as [HP|HP]; simpl.
  - rewrite Forall_cons. split.
    + intros [= Hlen]. split; [done|]. by apply IH.
    + intros [_ Hl]. f_equal. by apply IH.
  - split.
    + intros Hlen. pose proof (length_filter P l). lia.
    + by intros [? _]%Forall_cons.
Qed.

Lemma setIntersection_size {A} `{EqDecision A} (a b : list A) :
  NoDup a →
  JSSet.size (setIntersection a b) = length a ↔ ∀ x, x ∈ a → x ∈ b.
Proof.
  intros Ha. rewrite setIntersection_filter by done. unfold JSSet.size.
  rewrite length_filter_eq, Forall_forall. by setoid_rewrite has_true.
Qed.

Lemma ALL_NUMBERS_digits : Some <$> ALL_NUMBERS = digits.
Proof. reflexivity. Qed.

Lemma diagonal_subGrid (b : Sudoku) i :
  i < 9 →
  getSubGridContents b ((i * 3) mod 9, (i * 3) mod 9)
  = cellsOf b (subGridCoords (i mod 3 * 4)).
Proof. intros Hi. lt9 i; reflexivity. Qed.

(** One turn of the loop of [checkFullBoard]. *)
Lemma checkFullBoard_turn (row col sub : list Cell) :
  (JSSet.size
     (setIntersection (Some <$> ALL_NUMBERS)
        (setIntersection (JSSet.from sub)
           (setIntersection (JSSet.from row) (JSSet.from col)))) =? 9) = true
  ↔ ∀ d, digit d → Some d ∈ row ∧ Some d ∈ col ∧ Some d ∈ sub.
Proof.
  rewrite Nat.eqb_eq, ALL_NUMBERS_digits.
  change 9 with (length digits).
  rewrite setIntersection_size by apply NoDup_digits.
  setoid_rewrite elem_of_setIntersection. setoid_rewrite elem_of_setIntersection.
  setoid_rewrite elem_of_from. split.
  - intros H d Hd. destruct (H (Some d)) as (? & ? & ?); [|done].
    apply elem_of_digits. eauto.
  - intros H x (d & -> & Hd)%elem_of_digits. destruct (H d Hd) as (? & ? & ?). done.
Qed.

(** What [checkFullBoard] checks: no empty cell, and for [i] from 0 to 8 row
    [i], column [i] and the sub-grid on the diagonal with index [i mod 3]. *)
Lemma checkFullBoard_true (b : Sudoku) :
  is_grid b →
  checkFullBoard b = true ↔
  full b ∧ ∀ i, i < 9 →
    regionOk b (rowCoords i) ∧ regionOk b (colCoords i) ∧
    regionOk b (subGridCoords (i mod 3 * 4)).
Proof.
  intros Hg. unfold checkFullBoard.
  destruct (getNextEmptyCoord b) as [next|] eqn:Hnext.
  - split; [done|]. intros [Hfull _]. apply getNextEmptyCoord_None in Hfull. congruence.
  - apply getNextEmptyCoord_None in Hnext.
    rewrite forallb_forall. setoid_rewrite <- list_elem_of_In.
    unfold keys9. setoid_rewrite elem_of_seq.
    split.
    + intros H. split; [done|]. intros i Hi. specialize (H i ltac:(lia)).
      pose proof (proj1 (checkFullBoard_turn _ _ _) H) as H'. clear H.
      rename H' into H.
      rewrite (getRowContents_cells b (i, 0)) in H by (simpl; lia || done).
      rewrite (getColumnContents_cells b (0, i)) in H by (simpl; lia || done).
      rewrite diagonal_subGrid in H by done. simpl in H.
      rewrite !regionOk_iff by (unfold rowCoords, colCoords, subGridCoords;
                                 by rewrite length_fmap).
      split_and!; intros d Hd; by destruct (H d Hd) as (? & ? & ?).
    + intros [_ H] i Hi. apply (proj2 (checkFullBoard_turn _ _ _)).
      rewrite (getRowContents_cells b (i, 0)) by (simpl; lia || done).
      rewrite (getColumnContents_cells b (0, i)) by (simpl; lia || done).
      rewrite diagonal_subGrid by lia. simpl.
      destruct (H i ltac:(lia)) as (Hr & Hc & Hs).
      rewrite !regionOk_iff in Hr, Hc, Hs
        by (unfold rowCoords, colCoords, subGridCoords; by rewrite length_fmap).
      intros d Hd. auto.
Qed.

Lemma elem_of_regions_row i : i < 9 → rowCoords i ∈ regions.
Proof.
  intros Hi. unfold regions. apply elem_of_app. left.
  apply list_elem_of_fmap_2. apply elem_of_seq. lia.
Qed.

Lemma elem_of_regions_col i : i < 9 → colCoords i ∈ regions.
Proof.
  intros Hi. unfold regions. apply elem_of_app. right. apply elem_of_app. left.
  apply list_elem_of_fmap_2. apply elem_of_seq. lia.
Qed.

Lemma elem_of_regions_subGrid k : k < 9 → subGridCoords k ∈ regions.
Proof.
  intros Hi. unfold regions. apply elem_of_app. right. apply elem_of_app. right.
  apply list_elem_of_fmap_2. apply elem_of_seq. lia.
Qed.

Lemma valid_full (b : Sudoku) : validSolution b → full b.
Proof. intros Hv. apply fits_full. intros c Hc. by apply valid_fits. Qed.

(** A valid solution passes the validator. *)
Lemma checkFullBoard_valid (b : Sudoku) :
  is_grid b → validSolution b → checkFullBoard b = true.
Proof.
  intros Hg Hv. apply checkFullBoard_true; [done|]. split; [by apply valid_full|].
  intros i Hi. split_and!; apply Hv.
  - by apply elem_of_regions_row.
  - by apply elem_of_regions_col.
  - apply elem_of_regions_subGrid. lt9 i; simpl; lia.
Qed.

(** ** The solver on solvable boards *)

Lemma completes_fits (b F S : Sudoku) :
  is_grid b → validSolution S → agreesOnGivens b S → completes b F →
  ∀ c, inDomain c → fitsAt F c.
Proof.
  intros Hg Hv HagS (HgF & Hfull & Hag & Hfits) c Hc.
  destruct (is_grid_cellAt b c Hg Hc) as [[d|] Hbc]; [|by apply Hfits].
  destruct (valid_fits S c Hv Hc) as (d0 & HSc & Hdig & Hother).
  assert (d0 = d) as -> by (apply HagS in Hbc; congruence).
  exists d. split_and!; [by apply Hag|done|].
  intros c' Hc' Hne Hsees HFc'.
  destruct (is_grid_cellAt b c' Hg Hc') as [[d'|] Hbc'].
  - assert (d' = d) as -> by (apply Hag in Hbc'; congruence).
    apply (Hother c'); [done..|]. by apply HagS.
  - destruct (Hfits c' Hc' Hbc') as (d' & HFc'' & _ & Hother').
    assert (d' = d) as -> by congruence.
    apply (Hother' c); [done|done|by apply sees_sym|by apply Hag].
Qed.

(** C3: on a solvable board [solve] succeeds, its output passes
    [checkFullBoard], and every digit of the input is still in place.  The
    output is moreover valid in all 27 regions. *)
Theorem solve_solvable (b : Sudoku) :
  solvable b →
  ∃ F, solve (mkGame false b) = mkGame true F ∧
       checkFullBoard F = true ∧
       (∀ i j d, cellAt b i j = Some (Some d) → cellAt F i j = Some (Some d)) ∧
       validSolution F.
Proof.
  intros (Hg & S & HgS & Hv & HagS).
  destruct (solve_fuel_complete (Datatypes.S (emptyCount b)) b S) as [F HF];
    [done|lia|done..|].
  exists F. pose proof (solve_fuel_sound _ _ _ Hg HF eq_refl) as Hcomp.
  simpl in Hcomp.
  assert (validSolution F) as HvF.
  { apply fits_valid. by apply (completes_fits b F S). }
  split_and!.
  - by apply (solve_fuel_solve _ _ _ HF).
  - apply checkFullBoard_valid; [apply Hcomp|done].
  - apply Hcomp.
  - done.
Qed.

(** ** The solver on boards without an empty cell *)

Lemma solve_full (b : Sudoku) (s : bool) :
  full b → solve (mkGame s b) = mkGame true b.
Proof.
  intros Hfull%getNextEmptyCoord_None.
  pose proof (solve_unfold (mkGame s b)) as H. unfold solveBody in H.
  simpl board in H. rewrite Hfull in H. congruence.
Qed.

(** C5: a board without an empty cell comes back unchanged with
    [solved: true] whatever it holds, so when [checkFullBoard] rejects it
    [main] logs "SOLVED" and prints the same board again. *)
Theorem solve_full_board (b : Sudoku) (s : bool) :
  full b →
  solve (mkGame s b) = mkGame true b ∧
  (checkFullBoard b = false →
   mainOn b = ["Original board"%string] ++ prettyPrint b ++
              ["-----------------"%string; "SOLVED"%string] ++ prettyPrint b).
Proof.
  intros Hfull. split; [by apply solve_full|].
  intros Hcheck. unfold mainOn. rewrite Hcheck. simpl negb. cbv iota.
  rewrite solve_full by done. reflexivity.
Qed.

(** ** Counting: an injective relation needs room *)

Lemma Forall2_choice {A B} (P : A → B → Prop) (l : list A) :
  (∀ x, x ∈ l → ∃ y, P x y) → ∃ k, Forall2 P l k.
Proof.
  induction l as [|x l IH]; intros H.
  - exists []. constructor.
  - destruct (H x) as [y Hy]; [left|].
    destruct IH as [k Hk]; [intros x' Hx'; apply H; by right|].
    exists (y :: k). by constructor.
Qed.

Lemma Forall2_elem_of_right {A B} (P : A → B → Prop) l k y :
  Forall2 P l k → y ∈ k → ∃ x, x ∈ l ∧ P x y.
Proof.
  induction 1 as [|x y' l k Hxy _ IH]; [by intros ?%elem_of_nil|].
  intros [->|Hy]%elem_of_cons.
  - exists x. split; [left|done].
  - destruct (IH Hy) as (x' & ? & ?). exists x'. split; [by right|done].
Qed.

Lemma Forall2_NoDup_right {A B} (P : A → B → Prop) l k :
  Forall2 P l k →
  (∀ x x' y, x ∈ l → x' ∈ l → P x y → P x' y → x = x') →
  NoDup l → NoDup k.
Proof.
  induction 1 as [|x y l k Hxy HF IH]; intros Hinj Hnd; [constructor|].
  apply NoDup_cons in Hnd as [Hx Hnd]. apply NoDup_cons. split.
  - intros Hy. destruct (Forall2_elem_of_right _ _ _ _ HF Hy) as (x' & Hx' & HP).
    apply Hx. rewrite (Hinj x x' y); [done|left|by right|done..].
  - apply IH; [|done]. intros x1 x2 y' H1 H2. apply Hinj; by right.
Qed.

Lemma injection_length {A B} (P : A → B → Prop) (l : list A) (k : list B) :
  NoDup l →
  (∀ x, x ∈ l → ∃ y, y ∈ k ∧ P x y) →
  (∀ x x' y, x ∈ l → x' ∈ l → P x y → P x' y → x = x') →
  length l ≤ length k.
Proof.
  intros Hnd Htotal Hinj.
  destruct (Forall2_choice (λ x y, y ∈ k ∧ P x y) l Htotal) as [js Hjs].
  rewrite (Forall2_length _ _ _ Hjs). apply submseteq_length, NoDup_submseteq.
  - apply (Forall2_NoDup_right _ _ _ Hjs); [|done].
    intros x x' y Hx Hx' [_ H1] [_ H2]. by apply (Hinj x x' y).
  - intros y Hy. by destruct (Forall2_elem_of_right _ _ _ _ Hjs Hy) as (x & _ & ? & _).
Qed.

(** ** A digit given twice in a row *)

Lemma other_rows_length r :
  r < 9 → length (filter (λ r', r' ≠ r) (seq 0 9)) = 8.
Proof. intros Hr. lt9 r; reflexivity. Qed.

Lemma other_columns_length c1 c2 :
  c1 < 9 → c2 < 9 → c1 ≠ c2 →
  length (filter (λ j, j ≠ c1 ∧ j ≠ c2) (seq 0 9)) = 7.
Proof. intros H1 H2 Hne. lt9 c1; lt9 c2; (reflexivity || done). Qed.

(** C6: a board whose only digits are the same digit twice in one row is
    reported unsolved. *)
Theorem solve_duplicate_in_row (b : Sudoku) r c1 c2 d :
  is_grid b → r < 9 → c1 < 9 → c2 < 9 → c1 ≠ c2 → digit d →
  cellAt b r c1 = Some (Some d) →
  cellAt b r c2 = Some (Some d) →
  (∀ c, inDomain c → c ≠ (r, c1) → c ≠ (r, c2) → emptyAt b c) →
  solved (solve (mkGame false b)) = false.
Proof.
  intros Hg Hr Hc1 Hc2 Hne Hd Hb1 Hb2 Hrest.
  destruct (solved (solve (mkGame false b))) eqn:Hs; [exfalso|done].
  assert (solve_fuel (S (emptyCount b)) (mkGame false b)
          = Some (solve (mkGame false b))) as Hrun.
  { apply solve_fuel_enough. simpl. lia. }
  apply solve_fuel_sound in Hrun; [|done..].
  set (F := board (solve (mkGame false b))) in *.
  destruct Hrun as (HgF & Hfull & Hag & Hfits).
  pose proof (Hag _ _ _ Hb1) as HF1. pose proof (Hag _ _ _ Hb2) as HF2.
  assert (∀ r' j, r' < 9 → j < 9 → r' ≠ r → fitsAt F (r', j)) as Hfit.
  { intros r' j Hr' Hj Hne'. apply Hfits; [done|].
    apply Hrest; [done|congruence..]. }
  set (P := λ r' j, cellAt F r' j = Some (Some d)).
  assert (length (filter (λ r', r' ≠ r) (seq 0 9))
          ≤ length (filter (λ j, j ≠ c1 ∧ j ≠ c2) (seq 0 9))) as Habs.
  2: { rewrite other_rows_length, other_columns_length in Habs by done. lia. }
  apply (injection_length P); [apply NoDup_filter, NoDup_seq| |].
  - intros r' [Hne' Hr']%list_elem_of_filter. apply elem_of_seq in Hr'.
    assert (regionOk F (rowCoords r')) as Hok.
    { apply fits_regionOk; [apply elem_of_regions_row; lia|].
      intros c (j & -> & Hj%elem_of_seq)%list_elem_of_fmap.
      apply Hfit; [lia|lia|done]. }
    rewrite regionOk_iff in Hok by (unfold rowCoords; by rewrite length_fmap).
    apply (Hok d), elem_of_cellsOf in Hd as (c & Hc & Hcell).
    apply list_elem_of_fmap in Hc as (j & -> & Hj%elem_of_seq).
    apply readCell_Some in Hcell. simpl in Hcell.
    destruct (Hfit r' j) as (d' & Hd' & _ & Hother); [lia|lia|done|].
    simpl in Hd'. assert (d' = d) as -> by congruence.
    exists j. split; [|done]. apply list_elem_of_filter. split; [|apply elem_of_seq; lia].
    split; intros ->.
    + apply (Hother (r, c1)); [done|congruence|by right; left|done].
    + apply (Hother (r, c2)); [done|congruence|by right; left|done].
  - intros r1 r2 j [Hne1 Hr1%elem_of_seq]%list_elem_of_filter
      [Hne2 Hr2%elem_of_seq]%list_elem_of_filter H1 H2.
    destruct (decide (r1 = r2)) as [|Hne12]; [done|]. exfalso.
    assert (j < 9) as Hj.
    { unfold P, cellAt in H1. destruct (F !! r1) as [row|] eqn:Hrow; [|done].
      simpl in H1. apply lookup_lt_Some in H1.
      destruct HgF as [_ HgF]. rewrite Forall_forall in HgF.
      rewrite (HgF row) in H1; [done|]. by eapply list_elem_of_lookup_2. }
    destruct (Hfit r1 j) as (d' & Hd' & _ & Hother); [lia|lia|done|].
    simpl in Hd'. assert (d' = d) as -> by (unfold P in H1; congruence).
    apply (Hother (r2, j)); [split; simpl; lia|congruence|by right; left|done].
Qed.

(** ** The candidates of a cell *)

Lemma StronglySorted_filter {A} (R : relation A) (P : A → Prop)
    `{∀ x, Decision (P x)} (l : list A) :
  StronglySorted R l → StronglySorted R (filter P l).
Proof.
  induction 1 as [|x l Hl IH Hx]; [constructor|].
  rewrite filter_cons. destruct (decide (P x)); [|done].
  constructor; [done|]. rewrite Forall_forall in Hx |- *.
  intros y [_ Hy]%list_elem_of_filter. by apply Hx.
Qed.

Lemma StronglySorted_seq a n : StronglySorted lt (seq a n).
Proof.
  revert a. induction n as [|n IH]; intros a; simpl; constructor; [apply IH|].
  apply Forall_forall. intros y Hy%elem_of_seq. lia.
Qed.

(** C9: the candidates of a cell are the digits of 1-9 that occur neither in
    its row, nor in its column, nor in its 3x3 sub-grid, in ascending order
    and without repetition. *)
Theorem getOptionsForCoord_spec (b : Sudoku) (c : Coord) :
  is_grid b → inDomain c →
  StronglySorted lt (getOptionsForCoord b c) ∧
  NoDup (getOptionsForCoord b c) ∧
  ∀ d, d ∈ getOptionsForCoord b c ↔
       digit d ∧
       (∀ j, j < 9 → cellAt b c.1 j ≠ Some (Some d)) ∧
       (∀ i, i < 9 → cellAt b i c.2 ≠ Some (Some d)) ∧
       (∀ i j, i < 9 → j < 9 → i / 3 = c.1 / 3 → j / 3 = c.2 / 3 →
               cellAt b i j ≠ Some (Some d)).
Proof.
  intros Hg Hc. split_and!.
  - rewrite getOptionsForCoord_filter. apply StronglySorted_filter, StronglySorted_seq.
  - rewrite getOptionsForCoord_filter. apply NoDup_filter, NoDup_seq.
  - intros d. rewrite elem_of_getOptionsForCoord by done.
    apply and_iff_compat_l. split.
    + intros H. split_and!.
      * intros j Hj. apply (H (c.1, j)); [split; [apply Hc|done]|by left].
      * intros i Hi. apply (H (i, c.2)); [split; [done|apply Hc]|by right; left].
      * intros i j Hi Hj H1 H2. apply (H (i, j)); [done|by right; right].
    + intros (Hrow & Hcol & Hsub) [i j] [Hi Hj] [Hs|[Hs|[Hs1 Hs2]]]; simpl in *.
      * subst i. by apply Hrow.
      * subst j. by apply Hcol.
      * by apply Hsub.
Qed.

(** ** Checking concrete boards by evaluation *)

Lemma validSolution_Forall (b : Sudoku) :
  Forall (regionOk b) regions → validSolution b.
Proof. intros H R HR. rewrite Forall_forall in H. by apply H. Qed.

Lemma full_Forall (b : Sudoku) :
  Forall (λ c, ¬ emptyAt b c) allCoords → full b.
Proof. intros H c Hc. by apply (forall_inDomain _ H). Qed.

Lemma solvedBoard_valid : validSolution solvedBoard.
Proof. apply validSolution_Forall, (bool_decide_unpack _). vm_compute. reflexivity. Qed.

(** C1: [checkFullBoard] accepts [diagonalBoard], a full board whose
    top-middle sub-grid repeats a digit: in turn [i] the loop reads the
    sub-grid at [((i * 3) % 9, (i * 3) % 9)], which is always one of the three
    sub-grids on the diagonal, so the other six are never looked at. *)
Theorem checkFullBoard_diagonalBoard :
  is_board diagonalBoard ∧ full diagonalBoard ∧
  checkFullBoard diagonalBoard = true ∧
  ¬ regionOk diagonalBoard (subGridCoords 1) ∧
  ¬ validSolution diagonalBoard.
Proof.
  assert (¬ regionOk diagonalBoard (subGridCoords 1)) as Hbad.
  { apply (bool_decide_eq_false_1 _). vm_compute. reflexivity. }
  split_and!.
  - apply is_boardb_true. vm_compute. reflexivity.
  - apply full_Forall, (bool_decide_unpack _). vm_compute. reflexivity.
  - vm_compute. reflexivity.
  - done.
  - intros Hv. apply Hbad, Hv, elem_of_regions_subGrid. lia.
Qed.

(** ** The theorems at concrete boards *)

Lemma solve_solvable_witness :
  solvable emptyBoard ∧
  ∃ F, solve (mkGame false emptyBoard) = mkGame true F ∧
       checkFullBoard F = true ∧
       (∀ i j d, cellAt emptyBoard i j = Some (Some d) →
                 cellAt F i j = Some (Some d)) ∧
       validSolution F.
Proof.
  assert (solvable emptyBoard) as Hsolvable.
  { split; [apply is_gridb_true; vm_compute; reflexivity|]. exists solvedBoard.
    split_and!;
      [apply is_gridb_true; vm_compute; reflexivity|apply solvedBoard_valid|].
    intros i j d Hd. exfalso. unfold cellAt, emptyBoard in Hd.
    apply bind_Some in Hd as (row & Hrow & Hd).
    apply lookup_replicate in Hrow as [-> _].
    by apply lookup_replicate in Hd as [? _]. }
  split; [done|]. apply (solve_solvable emptyBoard Hsolvable).
Defined.

Lemma solve_full_board_witness :
  full onesBoard ∧ checkFullBoard onesBoard = false ∧
  solve (mkGame false onesBoard) = mkGame true onesBoard ∧
  mainOn onesBoard = ["Original board"%string] ++ prettyPrint onesBoard ++
        ["-----------------"%string; "SOLVED"%string] ++ prettyPrint onesBoard.
Proof.
  assert (full onesBoard) as Hfull.
  { apply full_Forall, (bool_decide_unpack _). vm_compute. reflexivity. }
  assert (checkFullBoard onesBoard = false) as Hcheck by (vm_compute; reflexivity).
  split_and!; [done|done|..].
  - apply (solve_full_board onesBoard false Hfull).
  - by apply (solve_full_board onesBoard false Hfull).
Defined.

Lemma solve_duplicate_in_row_witness :
  is_grid twoFivesBoard ∧
  cellAt twoFivesBoard 0 0 = Some (Some 5) ∧
  cellAt twoFivesBoard 0 1 = Some (Some 5) ∧
  (∀ c, inDomain c → c ≠ (0, 0) → c ≠ (0, 1) → emptyAt twoFivesBoard c) ∧
  solved (solve (mkGame false twoFivesBoard)) = false.
Proof.
  assert (is_grid twoFivesBoard) as Hg.
  { apply is_gridb_true. vm_compute. reflexivity. }
  assert (∀ c, inDomain c → c ≠ (0, 0) → c ≠ (0, 1) → emptyAt twoFivesBoard c) as Hrest.
  { apply (forall_inDomain
      (λ c, c ≠ (0, 0) → c ≠ (0, 1) → emptyAt twoFivesBoard c)).
    apply (bool_decide_unpack _). vm_compute. reflexivity. }
  split_and!; [done|reflexivity|reflexivity|done|].
  apply (solve_duplicate_in_row twoFivesBoard 0 0 1 5);
    [done|lia|lia|lia|lia|unfold digit; lia|reflexivity|reflexivity|done].
Defined.

Lemma solve_terminates_witness :
  is_grid (board (mkGame false twoFivesBoard)) ∧
  emptyCount twoFivesBoard ≤ 81 ∧
  solve_fuel 82 (mkGame false twoFivesBoard)
  = Some (solve (mkGame false twoFivesBoard)).
Proof.
  assert (is_grid (board (mkGame false twoFivesBoard))) as Hg.
  { apply is_gridb_true. vm_compute. reflexivity. }
  split; [done|].
  destruct (solve_terminates (mkGame false twoFivesBoard) Hg) as (Hle & _ & _ & Hrun).
  split; [apply Hle|apply Hrun].
Defined.

Lemma getOptionsForCoord_spec_witness :
  is_grid twoFivesBoard ∧ inDomain (0, 2) ∧
  getOptionsForCoord twoFivesBoard (0, 2) = [1; 2; 3; 4; 6; 7; 8; 9] ∧
  StronglySorted lt (getOptionsForCoord twoFivesBoard (0, 2)) ∧
  NoDup (getOptionsForCoord twoFivesBoard (0, 2)).
Proof.
  assert (is_grid twoFivesBoard) as Hg.
  { apply is_gridb_true. vm_compute. reflexivity. }
  assert (inDomain (0, 2)) as Hc by (split; simpl; lia).
  split_and!; [done|done|reflexivity|..].
  - apply (getOptionsForCoord_spec twoFivesBoard (0, 2) Hg Hc).
  - apply (getOptionsForCoord_spec twoFivesBoard (0, 2) Hg Hc).
Defined.

(** ** Parsing *)

Lemma mapE_inr {E A B} (f : A → E + B) (xs : list A) (ys : list B) :
  mapE f xs = inr ys ↔ Forall2 (λ x y, f x = inr y) xs ys.
Proof.
  revert ys. induction xs as [|x xs IH]; intros ys; simpl.
  - split; [intros [= <-]; constructor|]. by intros ->%Forall2_nil_inv_l.
  - destruct (f x) as [e|y] eqn:Hx.
    + split; [done|]. intros (y & ys' & Hy & _ & _)%Forall2_cons_inv_l. congruence.
    + destruct (mapE f xs) as [e|ys'] eqn:Hxs.
      * split; [done|]. intros (y' & ys' & _ & Hys' & _)%Forall2_cons_inv_l.
        apply IH in Hys'. congruence.
      * split.
        -- intros [= <-]. constructor; [done|]. by apply IH.
        -- intros (y' & ys'' & Hy' & Hys'' & ->)%Forall2_cons_inv_l.
           apply IH in Hys''. congruence.
Qed.

Lemma parseInt_Some char n :
  parseInt char = Some n ↔ 48 ≤ nat_of_ascii char ≤ 57 ∧ n = nat_of_ascii char - 48.
Proof.
  unfold parseInt.
  destruct (Nat.leb_spec 48 (nat_of_ascii char)), (Nat.leb_spec (nat_of_ascii char) 57);
    simpl; split; try (intros [= <-]); try (intros [? ->]); (done || lia).
Qed.

Lemma parseChar_inr char (c : Cell) :
  parseChar char = inr c ↔ accepted char ∧ c = parseInt char.
Proof.
  unfold parseChar, accepted. destruct (parseInt char) as [n|] eqn:Hn.
  - apply parseInt_Some in Hn as [Hrange ->]. split.
    + intros [= <-]. auto.
    + by intros [_ ->].
  - case_bool_decide as Hd.
    + split; [intros [= <-]; auto|]. by intros [_ ->].
    + split; [done|]. intros [[Hrange|?] _]; [|done].
      assert (parseInt char = Some (nat_of_ascii char - 48)) by by apply parseInt_Some.
      congruence.
Qed.

Lemma Forall2_fmap_eq {A B} (f : A → B) (P : A → Prop) (xs : list A) (ys : list B) :
  Forall2 (λ x y, P x ∧ y = f x) xs ys ↔ Forall P xs ∧ ys = f <$> xs.
Proof.
  split.
  - induction 1 as [|x y xs ys [HP ->] _ [IH1 ->]]; [done|].
    split; [by constructor|done].
  - intros [HP ->]. induction HP; simpl; constructor; auto.
Qed.

Lemma Forall2_equiv {A B} (P Q : A → B → Prop) (xs : list A) (ys : list B) :
  (∀ x y, P x y ↔ Q x y) → Forall2 P xs ys ↔ Forall2 Q xs ys.
Proof.
  intros HPQ. split; intros H; eapply Forall2_impl; try done; intros x y; apply HPQ.
Qed.

Lemma parseLine_inr line (row : Row) :
  parseLine line = inr row ↔
  String.length line = 9 ∧ Forall accepted (list_ascii_of_string line) ∧
  row = parseInt <$> list_ascii_of_string line.
Proof.
  unfold parseLine. destruct (Nat.eqb_spec (String.length line) 9) as [Hlen|Hlen]; simpl.
  - rewrite mapE_inr.
    rewrite (Forall2_equiv _ (λ x y, accepted x ∧ y = parseInt x))
      by (intros; apply parseChar_inr).
    rewrite Forall2_fmap_eq. tauto.
  - split; [done|]. by intros [? _].
Qed.

(** What [parseGame] accepts, and what it returns then: nine lines of nine
    characters, each a decimal digit (0 included) or a space. *)
Theorem parseGame_inr content (b : Sudoku) :
  parseGame content = inr b ↔
  let lines := removelast (split EOL content) in
  length lines = 9 ∧
  Forall (λ line, String.length line = 9 ∧
                  Forall accepted (list_ascii_of_string line)) lines ∧
  b = (λ line, parseInt <$> list_ascii_of_string line) <$> lines.
Proof.
  unfold parseGame. cbv zeta.
  destruct (Nat.eqb_spec (length (removelast (split EOL content))) 9) as [Hlen|Hlen];
    simpl.
  - rewrite mapE_inr.
    rewrite (Forall2_equiv _ (λ line row,
               (String.length line = 9 ∧ Forall accepted (list_ascii_of_string line)) ∧
               row = parseInt <$> list_ascii_of_string line)).
    + rewrite Forall2_fmap_eq. tauto.
    + intros line row. rewrite parseLine_inr. tauto.
  - split; [done|]. by intros [? _].
Qed.

(** C2: [parseGame] accepts a file whose first character is '0' and
    returns a board holding the number 0 in its first cell. *)
Theorem parseGame_zeroFile :
  parseGame zeroFile
  = inr ((Some 0 :: replicate 8 None) :: replicate 8 (replicate 9 None)).
Proof. vm_compute. reflexivity. Qed.

(** ** Printing *)

Lemma append_empty_l (s : string) : (EmptyString ++ s)%string = s.
Proof. reflexivity. Qed.

Lemma append_cons c (s1 s2 : string) :
  (String c s1 ++ s2)%string = String c (s1 ++ s2).
Proof. reflexivity. Qed.

Lemma append_empty_r (s : string) : (s ++ EmptyString)%string = s.
Proof. induction s as [|c s IH]; [done|]. by rewrite append_cons, IH. Qed.

Lemma append_assoc (s1 s2 s3 : string) :
  ((s1 ++ s2) ++ s3)%string = (s1 ++ (s2 ++ s3))%string.
Proof. induction s1 as [|c s1 IH]; [done|]. by rewrite !append_cons, IH. Qed.

Lemma length_append (s1 s2 : string) :
  String.length (s1 ++ s2) = String.length s1 + String.length s2.
Proof. induction s1 as [|c s1 IH]; [done|]. rewrite append_cons. simpl. by rewrite IH. Qed.

Lemma noEOL_append (s1 s2 : string) :
  noEOL (s1 ++ s2) = noEOL s1 && noEOL s2.
Proof.
  induction s1 as [|c s1 IH]; [done|]. rewrite append_cons. simpl.
  rewrite IH. by rewrite andb_assoc.
Qed.

Lemma prefix_EOL c (s : string) :
  String.prefix EOL (String c s) = bool_decide (c = ascii_of_nat 10).
Proof.
  unfold EOL. cbn [String.prefix].
  destruct (ascii_dec (ascii_of_nat 10) c) as [<-|Hne].
  - rewrite bool_decide_eq_true_2 by done. by destruct s.
  - by rewrite bool_decide_eq_false_2 by congruence.
Qed.

(** Splitting at line breaks gives back a line that holds none. *)
Lemma splitFrom_line (line rest cur : string) :
  noEOL line = true →
  splitFrom EOL (line ++ EOL ++ rest) 0 cur
  = (cur ++ line)%string :: splitFrom EOL rest 0 EmptyString.
Proof.
  revert cur. induction line as [|c line IH]; intros cur Hline.
  - rewrite append_empty_r, append_empty_l. unfold EOL at 2.
    rewrite append_cons, append_empty_l. cbn [splitFrom].
    rewrite prefix_EOL, bool_decide_eq_true_2 by done. reflexivity.
  - simpl in Hline. apply andb_true_iff in Hline as [Hc Hline].
    apply negb_true_iff, bool_decide_eq_false in Hc.
    rewrite append_cons. cbn [splitFrom].
    rewrite prefix_EOL, bool_decide_eq_false_2 by done.
    rewrite IH by done. by rewrite append_assoc.
Qed.

Lemma split_consoleText (lines : list string) :
  Forall (λ line, noEOL line = true) lines →
  split EOL (consoleText lines) = lines ++ [EmptyString].
Proof.
  induction 1 as [|line lines Hline _ IH]; [reflexivity|].
  unfold split in *. cbn [consoleText foldr]. rewrite splitFrom_line by done.
  rewrite append_empty_l. simpl. f_equal. apply IH.
Qed.

Lemma is_board_digit (b : Sudoku) i j d :
  is_board b → cellAt b i j = Some (Some d) → digit d.
Proof.
  intros [_ Hb]. unfold cellAt. intros (row & Hrow & Hd)%bind_Some.
  rewrite Forall_forall in Hb. specialize (Hb row (list_elem_of_lookup_2 _ _ _ Hrow)).
  rewrite Forall_forall in Hb. apply (Hb (Some d) (list_elem_of_lookup_2 _ _ _ Hd)).
Qed.

Lemma token_shape (b : Sudoku) i j :
  is_board b → i < 9 → j < 9 →
  String.length (token b i j) = 2 ∧ noEOL (token b i j) = true.
Proof.
  intros Hb Hi Hj. unfold token.
  destruct (is_grid_cellAt b (i, j) (proj1 Hb)) as [[d|] Hcell]; [done|..];
    simpl in Hcell; rewrite Hcell; [|done].
  destruct (is_board_digit b i j d Hb Hcell) as [Hd1 Hd2].
  destruct d as [|d]; [lia|]. lt9 d; done.
Qed.

Lemma rowText_shape (f : nat → string) (js : list nat) (acc : string) :
  (∀ j, j ∈ js → String.length (f j) = 2 ∧ noEOL (f j) = true) →
  String.length (foldl (λ row j, (row ++ f j)%string) acc js)
    = String.length acc + 2 * length js ∧
  (noEOL acc = true →
   noEOL (foldl (λ row j, (row ++ f j)%string) acc js) = true).
Proof.
  revert acc. induction js as [|j js IH]; intros acc Hf; simpl.
  - split; [lia|done].
  - destruct (Hf j) as [Hlen Hno]; [left|].
    destruct (IH (acc ++ f j)%string) as [IH1 IH2].
    { intros j' Hj'. apply Hf. by right. }
    split.
    + rewrite IH1, length_append, Hlen. lia.
    + intros Hacc. apply IH2. by rewrite noEOL_append, Hacc, Hno.
Qed.

Lemma prettyPrint_lines (b : Sudoku) :
  is_board b →
  length (prettyPrint b) = 9 ∧
  Forall (λ line, String.length line = 18 ∧ noEOL line = true) (prettyPrint b).
Proof.
  intros Hb. unfold prettyPrint. split; [by rewrite length_fmap|].
  apply Forall_fmap, Forall_forall. intros i Hi%elem_of_seq.
  destruct (rowText_shape (token b i) keys9 EmptyString) as [Hlen Hno].
  { intros j Hj%elem_of_seq. apply token_shape; [done|lia|lia]. }
  split; [exact Hlen|by apply Hno].
Qed.

(** *** The printed text determines the board *)

Lemma rowText_foldr (f : nat → string) (js : list nat) (acc : string) :
  foldl (λ row j, (row ++ f j)%string) acc js
  = (acc ++ foldr (λ j rest, (f j ++ rest)%string) EmptyString js)%string.
Proof.
  revert acc. induction js as [|j js IH]; intros acc; simpl.
  - by rewrite append_empty_r.
  - by rewrite IH, append_assoc.
Qed.

Lemma append_inj_2 (s1 s2 t1 t2 : string) :
  String.length s1 = 2 → String.length s2 = 2 →
  (s1 ++ t1)%string = (s2 ++ t2)%string → s1 = s2 ∧ t1 = t2.
Proof.
  destruct s1 as [|a1 [|b1 [|? ?]]]; try done.
  destruct s2 as [|a2 [|b2 [|? ?]]]; try done.
  intros _ _. rewrite !append_cons, !append_empty_l. by intros [= -> -> ->].
Qed.

Lemma tokens_inj (f g : nat → string) (js : list nat) :
  (∀ j, j ∈ js → String.length (f j) = 2 ∧ String.length (g j) = 2) →
  foldr (λ j rest, (f j ++ rest)%string) EmptyString js
  = foldr (λ j rest, (g j ++ rest)%string) EmptyString js →
  ∀ j, j ∈ js → f j = g j.
Proof.
  induction js as [|j js IH]; intros Hlen Heq j' Hj'; simpl in Heq.
  - by apply elem_of_nil in Hj'.
  - destruct (Hlen j) as [Hf Hg]; [left|].
    apply append_inj_2 in Heq as [Hhead Htail]; [|done..].
    apply elem_of_cons in Hj' as [->|Hj']; [done|].
    apply IH; [|done..]. intros j'' Hj''. apply Hlen. by right.
Qed.

Lemma token_inj (b1 b2 : Sudoku) i j :
  is_board b1 → is_board b2 → i < 9 → j < 9 →
  token b1 i j = token b2 i j → cellAt b1 i j = cellAt b2 i j.
Proof.
  intros Hb1 Hb2 Hi Hj. unfold token.
  destruct (is_grid_cellAt b1 (i, j) (proj1 Hb1)) as [x1 H1]; [done|].
  destruct (is_grid_cellAt b2 (i, j) (proj1 Hb2)) as [x2 H2]; [done|].
  simpl in H1, H2. rewrite H1, H2.
  assert (∀ d, x1 = Some d → digit d) as Hd1.
  { intros d ->. by apply (is_board_digit b1 i j). }
  assert (∀ d, x2 = Some d → digit d) as Hd2.
  { intros d ->. by apply (is_board_digit b2 i j). }
  destruct x1 as [d1|], x2 as [d2|]; [| | |done].
  - destruct (Hd1 d1 eq_refl) as [? ?], (Hd2 d2 eq_refl) as [? ?].
    destruct d1 as [|d1]; [lia|]. destruct d2 as [|d2]; [lia|].
    lt9 d1; lt9 d2; (done || by intros [=]).
  - destruct (Hd1 d1 eq_refl) as [? ?].
    destruct d1 as [|d1]; [lia|]. lt9 d1; by intros [=].
  - destruct (Hd2 d2 eq_refl) as [? ?].
    destruct d2 as [|d2]; [lia|]. lt9 d2; by intros [=].
Qed.

Lemma grid_ext (b1 b2 : Sudoku) :
  is_grid b1 → is_grid b2 →
  (∀ i j, i < 9 → j < 9 → cellAt b1 i j = cellAt b2 i j) → b1 = b2.
Proof.
  intros Hg1 Hg2 Hcells.
  apply list_eq_same_length with 9; [apply (proj1 Hg2)|apply (proj1 Hg1)|].
  intros i row1 row2 Hi Hrow1 Hrow2.
  destruct (is_grid_row b1 i Hg1 Hi) as (r1 & Hr1 & Hlen1).
  destruct (is_grid_row b2 i Hg2 Hi) as (r2 & Hr2 & Hlen2).
  assert (r1 = row1) as -> by congruence. assert (r2 = row2) as -> by congruence.
  apply list_eq_same_length with 9; [done..|].
  intros j x1 x2 Hj Hx1 Hx2. specialize (Hcells i j Hi Hj).
  unfold cellAt in Hcells. rewrite Hrow1, Hrow2 in Hcells. simpl in Hcells.
  congruence.
Qed.

Lemma prettyPrint_lookup (b : Sudoku) i :
  i < 9 →
  prettyPrint b !! i
  = Some (foldl (λ row j, (row ++ token b i j)%string) EmptyString keys9).
Proof.
  intros Hi. unfold prettyPrint. rewrite list_lookup_fmap.
  unfold keys9 at 2. by rewrite lookup_seq_lt by done.
Qed.

Lemma prettyPrint_inj (b1 b2 : Sudoku) :
  is_board b1 → is_board b2 → prettyPrint b1 = prettyPrint b2 → b1 = b2.
Proof.
  intros Hb1 Hb2 Heq. apply grid_ext; [apply Hb1|apply Hb2|].
  intros i j Hi Hj. apply token_inj; [done..|].
  pose proof (prettyPrint_lookup b1 i Hi) as Hrow.
  rewrite Heq, prettyPrint_lookup in Hrow by done.
  apply (inj Some) in Hrow. rewrite !rowText_foldr in Hrow.
  rewrite !append_empty_l in Hrow. symmetry in Hrow.
  apply (tokens_inj (token b1 i) (token b2 i) keys9); [|done|].
  - intros j' Hj'%elem_of_seq.
    split; [apply (token_shape b1)|apply (token_shape b2)]; (done || lia).
  - apply elem_of_seq. lia.
Qed.

(** C4, as the code has it: the text that [prettyPrint] writes is never
    read back by [parseGame].  Every printed line has 18 characters, two for
    each cell, and [parseGame] stops at the first line with the line-length
    error.  The printed lines still determine the board. *)
Theorem parseGame_prettyPrint (b : Sudoku) :
  is_board b →
  Forall (λ line, String.length line = 18) (prettyPrint b) ∧
  parseGame (consoleText (prettyPrint b)) = inl BadLineLength ∧
  ∀ b', is_board b' → prettyPrint b' = prettyPrint b → b' = b.
Proof.
  intros Hb. destruct (prettyPrint_lines b Hb) as [Hlen Hlines].
  split_and!.
  - by eapply Forall_impl; [done|intros ? [? _]].
  - unfold parseGame. rewrite split_consoleText
      by (by eapply Forall_impl; [done|intros ? [_ ?]]).
    rewrite removelast_last, Hlen. change (negb (9 =? 9)) with false. cbv iota.
    destruct (prettyPrint b) as [|line lines]; [done|].
    apply Forall_cons in Hlines as [[Hline _] _].
    cbn [mapE]. unfold parseLine. by rewrite Hline.
  - intros b' Hb' Heq. by apply prettyPrint_inj.
Qed.

Lemma parseGame_prettyPrint_witness :
  is_board solvedBoard ∧
  parseGame (consoleText (prettyPrint solvedBoard)) = inl BadLineLength.
Proof.
  assert (is_board solvedBoard) as Hb.
  { apply is_boardb_true. vm_compute. reflexivity. }
  split; [done|]. apply (parseGame_prettyPrint solvedBoard Hb).
Defined.

(** C4, as the specification has it, fails on [solvedBoard]: its rendering
    starts with the line "1 2 3 4 5 6 7 8 9 " and is rejected. *)
Lemma prettyPrint_roundtrip_fails :
  is_board solvedBoard ∧
  parseGame (consoleText (prettyPrint solvedBoard)) ≠ inr solvedBoard.
Proof.
  split; [apply is_boardb_true; vm_compute; reflexivity|].
  vm_compute. discriminate.
Qed.

(** ** The solver over a store of arrays *)

Section heap_solver.
Import Heap.
Implicit Types (σ ext : list object) (b : list (list (option nat))).

Lemma boardAt_app σ ext l b : boardAt σ l b → boardAt (σ ++ ext) l b.
Proof.
  intros (rows & Hl & Hnd & Hrows). exists rows. split_and!; [|done|].
  - by apply lookup_app_l_Some.
  - eapply Forall2_impl; [done|]. intros r cells Hr. by apply lookup_app_l_Some.
Qed.

Lemma boardAt_readBoard σ l b : boardAt σ l b → readBoard σ l = Some b.
Proof.
  intros (rows & Hl & _ & Hrows). unfold readBoard. rewrite Hl.
  apply mapM_Some_2. eapply Forall2_impl; [done|].
  intros r cells Hr. unfold readRow. by rewrite Hr.
Qed.

Lemma heapOf_boardAt b : boardAt (heapOf b) (length b) b.
Proof.
  unfold heapOf. exists (seq 0 (length b)). split_and!.
  - rewrite lookup_app_r by (by rewrite length_fmap).
    by rewrite length_fmap, Nat.sub_diag.
  - apply NoDup_seq.
  - apply Forall2_same_length_lookup. split; [by rewrite length_seq|].
    intros i r cells [-> Hi]%lookup_seq Hcells. simpl.
    rewrite lookup_app_l by (by rewrite length_fmap).
    by rewrite list_lookup_fmap, Hcells.
Qed.

Lemma cloneRows_spec σ memo rows b :
  Forall2 (λ r cells, σ !! r = Some (ORow cells)) rows b →
  NoDup rows →
  (∀ r, r ∈ rows → assoc r memo = None) →
  ∃ ext copies,
    cloneRows σ memo rows = Some (σ ++ ext, copies) ∧
    Forall2 (λ r cells, (σ ++ ext) !! r = Some (ORow cells)) copies b ∧
    NoDup copies ∧
    ∀ r, r ∈ copies → length σ ≤ r.
Proof.
  revert σ memo b. induction rows as [|r rows IH]; intros σ memo b Hrows Hnd Hmemo.
  - apply Forall2_nil_inv_l in Hrows as ->. exists [], []. simpl.
    rewrite app_nil_r. split_and!; [done|constructor|constructor|].
    by intros r ?%elem_of_nil.
  - apply Forall2_cons_inv_l in Hrows as (cells & b' & Hr & Hrows & ->).
    apply NoDup_cons in Hnd as [Hr_new Hnd]. simpl.
    rewrite Hmemo by left. unfold readRow. rewrite Hr. simpl.
    destruct (IH (σ ++ [ORow cells]) ((r, length σ) :: memo) b')
      as (ext & copies & Hclone & Hcopies & Hnd' & Hfresh).
    { eapply Forall2_impl; [done|]. intros r' cells' Hr'. by apply lookup_app_l_Some. }
    { done. }
    { intros r' Hr'. simpl. destruct (decide (r = r')) as [->|_]; [done|].
      apply Hmemo. by right. }
    rewrite Hclone. simpl. exists ([ORow cells] ++ ext), (length σ :: copies).
    rewrite (assoc_L (++)). split_and!; [done| | |].
    + constructor; [|done]. rewrite <- (assoc_L (++)).
      rewrite lookup_app_r by lia. by rewrite Nat.sub_diag.
    + apply NoDup_cons. split; [|done]. intros Hin%Hfresh.
      rewrite length_app in Hin. simpl in Hin. lia.
    + intros r' [->|Hr']%elem_of_cons; [done|]. apply Hfresh in Hr'.
      rewrite length_app in Hr'. simpl in Hr'. lia.
Qed.

Lemma structuredClone_spec σ l b :
  boardAt σ l b →
  ∃ ext l' copies,
    structuredClone σ l = Some (σ ++ ext, l') ∧
    (σ ++ ext) !! l' = Some (OBoard copies) ∧
    NoDup copies ∧
    Forall2 (λ r cells, (σ ++ ext) !! r = Some (ORow cells)) copies b ∧
    ∀ r, r ∈ copies → length σ ≤ r.
Proof.
  intros (rows & Hl & Hnd & Hrows). unfold structuredClone. rewrite Hl.
  destruct (cloneRows_spec σ [] rows b Hrows Hnd)
    as (ext & copies & Hclone & Hcopies & Hnd' & Hfresh); [done|].
  rewrite Hclone. simpl.
  exists (ext ++ [OBoard copies]), (length (σ ++ ext)), copies.
  rewrite (assoc_L (++)). split_and!; [done| |done| |done].
  - rewrite lookup_app_r by lia. by rewrite Nat.sub_diag.
  - eapply Forall2_impl; [done|]. intros r cells Hr. by apply lookup_app_l_Some.
Qed.

Lemma writeCell_spec σ ext l copies b next v (row : list (option nat)) :
  (σ ++ ext) !! l = Some (OBoard copies) →
  NoDup copies →
  Forall2 (λ r cells, (σ ++ ext) !! r = Some (ORow cells)) copies b →
  (∀ r, r ∈ copies → length σ ≤ r) →
  b !! next.1 = Some row →
  ∃ ext', writeCell (σ ++ ext) l next v = Some (σ ++ ext') ∧
          boardAt (σ ++ ext') l (place b next v).
Proof.
  intros Hl Hnd Hcopies Hfresh Hrow.
  destruct (Forall2_lookup_r _ _ _ _ _ Hcopies Hrow) as (r & Hr & Hcells).
  unfold writeCell. rewrite Hl, Hr. simpl. rewrite Hcells.
  pose proof (Hfresh r (list_elem_of_lookup_2 _ _ _ Hr)) as Hge.
  exists (<[r - length σ := ORow (<[next.2 := Some v]> row)]> ext).
  rewrite insert_app_r_alt by done. split; [done|].
  rewrite <- insert_app_r_alt by done.
  assert (l ≠ r) as Hlr by (intros ->; congruence).
  exists copies. split_and!; [by rewrite list_lookup_insert_ne|done|].
  apply Forall2_same_length_lookup. split.
  { unfold place. rewrite length_alter. by eapply Forall2_length. }
  intros i r' cells' Hr' Hcells'. unfold place in Hcells'.
  destruct (decide (i = next.1)) as [->|Hi].
  - rewrite list_lookup_alter_eq, Hrow in Hcells'. simpl in Hcells'.
    injection Hcells' as <-. assert (r' = r) as -> by congruence.
    apply list_lookup_insert_eq. by eapply lookup_lt_Some.
  - rewrite list_lookup_alter_ne in Hcells' by done.
    rewrite list_lookup_insert_ne.
    + apply (Forall2_lookup_lr _ _ _ _ _ _ Hcopies Hr' Hcells').
    + intros <-. apply Hi. apply (NoDup_lookup _ _ _ _ Hnd Hr' Hr).
Qed.

Lemma tryOptionsH_spec rec recH σ g b next options r (row : list (option nat)) :
  (∀ σ g b r, boardAt σ (boardH g) b →
     rec (mkGame (solvedH g) b) = Some r → runsAs σ g r (recH σ g)) →
  boardAt σ (boardH g) b →
  b !! next.1 = Some row →
  tryOptions rec (mkGame (solvedH g) b) next options = Some r →
  runsAs σ g r (tryOptionsH recH σ g next options).
Proof.
  intros Hrec Hb Hrow. revert σ Hb.
  induction options as [|o rest IH]; intros σ Hb; simpl.
  - intros [= <-]. exists [], g. rewrite app_nil_r. auto.
  - destruct (rec _) as [fg|] eqn:Hfg; [|done].
    destruct (structuredClone_spec σ _ b Hb)
      as (ext1 & l' & copies & -> & Hl' & Hnd & Hcopies & Hfresh). simpl.
    destruct (writeCell_spec σ ext1 l' copies b next o row Hl' Hnd Hcopies Hfresh Hrow)
      as (ext2 & -> & Hb2). simpl.
    destruct (Hrec (σ ++ ext2) (mkGameRef false l') (place b next o) fg Hb2 Hfg)
      as (ext3 & g3 & -> & Hs3 & Hb3 & Hg3). simpl.
    rewrite Hs3. destruct (solved fg) eqn:Hsolved.
    + intros [= <-]. exists (ext2 ++ ext3), g3. rewrite (assoc_L (++)).
      split_and!; [done|congruence|done|]. right.
      destruct Hg3 as [->|[_ Hfull]]; [done|]. split; [congruence|done].
    + intros Hrest. rewrite <- (assoc_L (++)).
      destruct (IH (σ ++ ext2 ++ ext3)) as (ext4 & g4 & -> & Hs4 & Hb4 & Hg4);
        [by apply boardAt_app|done|].
      exists ((ext2 ++ ext3) ++ ext4), g4. rewrite !(assoc_L (++)) in *. done.
Qed.

Lemma solveH_spec fuel σ g b r :
  boardAt σ (boardH g) b →
  solve_fuel fuel (mkGame (solvedH g) b) = Some r →
  runsAs σ g r (solveH fuel σ g).
Proof.
  revert σ g b r. induction fuel as [|fuel IH]; intros σ g b r Hb; [done|].
  simpl. unfold solveBody, solveBodyH. simpl board.
  rewrite (boardAt_readBoard _ _ _ Hb). simpl.
  destruct (getNextEmptyCoord b) as [next|] eqn:Hnext.
  - destruct (length _ =? 0).
    + intros [= <-]. exists [], g. rewrite app_nil_r. auto.
    + apply getNextEmptyCoord_Some in Hnext as (_ & (row & Hrow & _)%emptyAt_lookup & _).
      by apply (tryOptionsH_spec _ _ _ _ _ _ _ _ row).
  - intros [= <-]. exists [], (mkGameRef true (boardH g)). rewrite app_nil_r.
    split_and!; [done..|]. by right.
Qed.

Lemma tryOptions_all_fail game next options :
  (∀ o, o ∈ options →
        solved (solve (mkGame false (place (board game) next o))) = false) →
  tryOptions (λ g, Some (solve g)) game next options = Some game.
Proof.
  induction options as [|o rest IH]; intros Hfail; simpl; [done|].
  rewrite Hfail by left. apply IH. intros o' Ho'. apply Hfail. by right.
Qed.

(** When no candidate leads to a solution [solve] returns its argument. *)
Lemma solve_all_fail game next :
  getNextEmptyCoord (board game) = Some next →
  (∀ o, o ∈ getOptionsForCoord (board game) next →
        solved (solve (mkGame false (place (board game) next o))) = false) →
  solve game = game.
Proof.
  intros Hnext Hfail. pose proof (solve_unfold game) as H.
  unfold solveBody in H. rewrite Hnext in H.
  destruct (length _ =? 0); [congruence|].
  rewrite tryOptions_all_fail in H by done. congruence.
Qed.

(** C8: [solve] writes only to the copies it makes.  Started on a store
    that holds the board, it ends with a store that extends the first one:
    every object that existed is as it was and the board given reads as
    before.  Its result is that of the pure [solve].  A result that is not
    solved is the input game itself; in particular the input game is
    returned when the first empty cell has no candidate (the store is then
    not touched at all) and when every candidate's attempt fails.  The game
    returned in these cases being the one passed in, it has [solved: false]
    whenever that one has, which is so in every call of the program. *)
Theorem solve_keeps_input (fuel : nat) σ (g : GameRef) b :
  boardAt σ (boardH g) b → emptyCount b < fuel →
  ∃ σ' g',
    solveH fuel σ g = Some (σ', g') ∧
    (∃ ext, σ' = σ ++ ext) ∧
    readBoard σ' (boardH g) = Some b ∧
    solvedH g' = solved (solve (mkGame (solvedH g) b)) ∧
    readBoard σ' (boardH g') = Some (board (solve (mkGame (solvedH g) b))) ∧
    (solvedH g' = false → g' = g) ∧
    (∀ next, getNextEmptyCoord b = Some next → getOptionsForCoord b next = [] →
             σ' = σ ∧ g' = g) ∧
    (∀ next, getNextEmptyCoord b = Some next →
             (∀ o, o ∈ getOptionsForCoord b next →
                   solved (solve (mkGame false (place b next o))) = false) →
             g' = g).
Proof.
  intros Hb Hfuel.
  pose proof (solve_fuel_enough fuel (mkGame (solvedH g) b) Hfuel) as Hrun.
  destruct (solveH_spec fuel σ g b _ Hb Hrun) as (ext & g' & Hres & Hs & Hb' & Hg').
  exists (σ ++ ext), g'. split_and!; [done|by exists ext|..].
  - by apply boardAt_readBoard, boardAt_app.
  - done.
  - by apply boardAt_readBoard.
  - intros Hfalse. destruct Hg' as [->|[Htrue _]]; [done|congruence].
  - intros next Hnext Hopts. destruct fuel as [|fuel]; [lia|].
    simpl in Hres. unfold solveBodyH in Hres.
    rewrite (boardAt_readBoard _ _ _ Hb) in Hres. simpl in Hres.
    rewrite Hnext, Hopts in Hres. simpl in Hres. by injection Hres as <- <-.
  - intros next Hnext Hfail. destruct Hg' as [->|[_ Hfull]]; [done|].
    rewrite (solve_all_fail (mkGame (solvedH g) b) next) in Hfull by done.
    simpl in Hfull. congruence.
Qed.
End heap_solver.

Lemma solve_keeps_input_witness :
  Heap.boardAt (Heap.heapOf deadEndBoard) 9 deadEndBoard ∧
  emptyCount deadEndBoard < 82 ∧
  Heap.solveH 82 (Heap.heapOf deadEndBoard) (Heap.mkGameRef false 9)
  = Some (Heap.heapOf deadEndBoard, Heap.mkGameRef false 9).
Proof.
  assert (Heap.boardAt (Heap.heapOf deadEndBoard) 9 deadEndBoard) as Hb.
  { apply (heapOf_boardAt deadEndBoard). }
  assert (emptyCount deadEndBoard < 82) as Hfuel by (vm_compute; lia).
  split_and!; [done..|].
  destruct (solve_keeps_input 82 (Heap.heapOf deadEndBoard) (Heap.mkGameRef false 9)
              deadEndBoard Hb Hfuel)
    as (σ' & g' & Hrun & _ & _ & _ & _ & _ & Hdead & _).
  destruct (Hdead (0, 0)) as [-> ->]; [reflexivity..|]. exact Hrun.
Defined.

(** ** Runs of the program *)

Example split_lines :
  split EOL ("ab" ++ EOL ++ "cd" ++ EOL) = ["ab"; "cd"; EmptyString]%string.
Proof. reflexivity. Qed.

Example parseGame_blank_file :
  parseGame (consoleText (replicate 9 "         "%string)) = inr emptyBoard.
Proof. vm_compute. reflexivity. Qed.

Example parseGame_no_final_break :
  parseGame ("123456789" ++ EOL ++ "123456789") = inl NotNineLines.
Proof. vm_compute. reflexivity. Qed.

Example prettyPrint_twoFivesBoard :
  head (prettyPrint twoFivesBoard) = Some "5 5 * * * * * * * "%string.
Proof. vm_compute. reflexivity. Qed.

Example getOptionsForCoord_deadEnd : getOptionsForCoord deadEndBoard (0, 0) = [].
Proof. reflexivity. Qed.

(** The search on the empty board ends on the first grid in its order. *)
Example solve_emptyBoard :
  solve (mkGame false emptyBoard) = mkGame true (boardOf
    [ [1;2;3; 4;5;6; 7;8;9];
      [4;5;6; 7;8;9; 1;2;3];
      [7;8;9; 1;2;3; 4;5;6];
      [2;1;4; 3;6;5; 8;9;7];
      [3;6;5; 8;9;7; 2;1;4];
      [8;9;7; 2;1;4; 3;6;5];
      [5;3;1; 6;4;2; 9;7;8];
      [6;4;2; 9;7;8; 5;3;1];
      [9;7;8; 5;3;1; 6;4;2] ]).
Proof. vm_compute. reflexivity. Qed.

Example mainOn_solvedBoard :
  mainOn solvedBoard
  = ["Original board"%string] ++ prettyPrint solvedBoard ++
    ["-----------------"; "PRE-SOLVED"]%string.
Proof. vm_compute. reflexivity. Qed.

(** * Further properties of the program *)

(** ** Results of the search *)

Lemma tryOptions_result rec game next options r :
  (∀ g r, rec g = Some r →
          r = g ∨ (solved r = true ∧ getNextEmptyCoord (board r) = None)) →
  tryOptions rec game next options = Some r →
  r = game ∨ (solved r = true ∧ getNextEmptyCoord (board r) = None).
Proof.
  intros Hrec. induction options as [|o rest IH]; simpl.
  - intros [= <-]. by left.
  - destruct (rec _) as [fg|] eqn:Hfg; [|done].
    destruct (solved fg) eqn:Hs; [|done].
    intros [= <-]. right. destruct (Hrec _ _ Hfg) as [->|[_ ?]]; done.
Qed.

(** A run returns its argument, or a solved game on a board without empty
    cell. *)
Lemma solve_fuel_result fuel game r :
  solve_fuel fuel game = Some r →
  r = game ∨ (solved r = true ∧ getNextEmptyCoord (board r) = None).
Proof.
  revert game r. induction fuel as [|fuel IH]; intros game r; [done|].
  simpl. unfold solveBody.
  destruct (getNextEmptyCoord (board game)) as [next|] eqn:Hnext.
  - destruct (length _ =? 0); [intros [= <-]; by left|].
    by apply tryOptions_result.
  - intros [= <-]. by right.
Qed.

Lemma solve_result game :
  solve game = game ∨
  (solved (solve game) = true ∧ getNextEmptyCoord (board (solve game)) = None).
Proof.
  apply (solve_fuel_result (S (emptyCount (board game)))).
  apply solve_fuel_enough. lia.
Qed.

(** X1: [solve] is idempotent: applied to its own result it returns that
    result, whatever the game it started from. *)
Theorem solve_idempotent (game : Game) : solve (solve game) = solve game.
Proof.
  destruct (solve_result game) as [Heq|[Hs Hfull]]; [by rewrite Heq|].
  destruct (solve game) as [s F]. simpl in *. subst s.
  apply solve_full. by apply getNextEmptyCoord_None.
Qed.

(** X2: on every 9x9 board, solvable or not, the board that [solve] returns
    is a 9x9 board that holds every number the input holds, in the same
    place; when the result is not solved it is the input board itself. *)
Theorem solve_keeps_givens (b : Sudoku) :
  is_grid b →
  is_grid (board (solve (mkGame false b))) ∧
  (∀ i j d, cellAt b i j = Some (Some d) →
            cellAt (board (solve (mkGame false b))) i j = Some (Some d)) ∧
  (solved (solve (mkGame false b)) = false → solve (mkGame false b) = mkGame false b).
Proof.
  intros Hg. destruct (solve_result (mkGame false b)) as [Heq|[Hs _]].
  - rewrite Heq. simpl. split_and!; done.
  - assert (solve_fuel (S (emptyCount b)) (mkGame false b)
            = Some (solve (mkGame false b))) as Hrun.
    { apply solve_fuel_enough. simpl. lia. }
    destruct (solve_fuel_sound _ _ _ Hg Hrun Hs) as (HgF & _ & Hag & _).
    split_and!; [done|done|]. intros Hfalse. congruence.
Qed.

Lemma solve_keeps_givens_witness :
  is_grid twoFivesBoard ∧
  cellAt (board (solve (mkGame false twoFivesBoard))) 0 1 = Some (Some 5).
Proof.
  assert (is_grid twoFivesBoard) as Hg.
  { apply is_gridb_true. vm_compute. reflexivity. }
  split; [done|].
  destruct (solve_keeps_givens twoFivesBoard Hg) as (_ & Hkeep & _).
  apply Hkeep. reflexivity.
Defined.

(** X3: when [solve] reports [solved: true] on a 9x9 board, the board it
    returns has no empty cell, and every cell that was empty in the input
    holds a digit of 1-9 that no other cell of its row, its column or its
    sub-grid holds.  The givens themselves are not checked. *)
Theorem solve_sound (b : Sudoku) :
  is_grid b → solved (solve (mkGame false b)) = true →
  full (board (solve (mkGame false b))) ∧
  ∀ c, inDomain c → emptyAt b c →
    ∃ d, cellAt (board (solve (mkGame false b))) c.1 c.2 = Some (Some d) ∧
         1 ≤ d ≤ 9 ∧
         ∀ c', inDomain c' → c' ≠ c → sees c c' →
               cellAt (board (solve (mkGame false b))) c'.1 c'.2 ≠ Some (Some d).
Proof.
  intros Hg Hs.
  assert (solve_fuel (S (emptyCount b)) (mkGame false b)
          = Some (solve (mkGame false b))) as Hrun.
  { apply solve_fuel_enough. simpl. lia. }
  destruct (solve_fuel_sound _ _ _ Hg Hrun Hs) as (_ & Hfull & _ & Hfits).
  split; [done|]. intros c Hc He. apply (Hfits c Hc He).
Qed.

Lemma solve_sound_witness :
  is_grid emptyBoard ∧ solved (solve (mkGame false emptyBoard)) = true ∧
  full (board (solve (mkGame false emptyBoard))).
Proof.
  assert (is_grid emptyBoard) as Hg.
  { apply is_gridb_true. vm_compute. reflexivity. }
  assert (solved (solve (mkGame false emptyBoard)) = true) as Hs.
  { vm_compute. reflexivity. }
  split_and!; [done..|]. apply (solve_sound emptyBoard Hg Hs).
Defined.

(** ** Boards whose givens do not conflict *)

Lemma consistentGivens_spec (b : Sudoku) c d :
  consistentGivens b → inDomain c → cellAt b c.1 c.2 = Some (Some d) →
  digit d ∧
  ∀ c', inDomain c' → c' ≠ c → sees c c' → cellAt b c'.1 c'.2 ≠ Some (Some d).
Proof.
  intros Hb Hc Hd. destruct (forall_inDomain _ Hb c Hc d Hd) as [Hdig Hall].
  split; [done|]. intros c' Hc'. by apply (forall_inDomain _ Hall).
Qed.

Lemma completion_consistent (b S : Sudoku) :
  is_grid b → validSolution S → agreesOnGivens b S → consistentGivens b.
Proof.
  intros Hg Hv Hag. apply Forall_forall. intros c Hc%elem_of_allCoords d Hd.
  destruct (valid_fits S c Hv Hc) as (d0 & HSc & Hdig & Hother).
  assert (d0 = d) as -> by (apply Hag in Hd; congruence).
  split; [done|]. apply Forall_forall. intros c' Hc'%elem_of_allCoords Hne Hsees Hbc'.
  apply (Hother c'); [done..|]. by apply Hag.
Qed.

Lemma completes_consistent_fits (b F : Sudoku) :
  is_grid b → consistentGivens b → completes b F →
  ∀ c, inDomain c → fitsAt F c.
Proof.
  intros Hg Hcons (HgF & Hfull & Hag & Hfits) c Hc.
  destruct (is_grid_cellAt b c Hg Hc) as [[d|] Hbc]; [|by apply Hfits].
  destruct (consistentGivens_spec b c d Hcons Hc Hbc) as [Hdig Hother].
  exists d. split_and!; [by apply Hag|done|].
  intros c' Hc' Hne Hsees HFc'.
  destruct (is_grid_cellAt b c' Hg Hc') as [[d'|] Hbc'].
  - assert (d' = d) as -> by (apply Hag in Hbc'; congruence).
    by apply (Hother c').
  - destruct (Hfits c' Hc' Hbc') as (d' & HFc'' & _ & Hother').
    assert (d' = d) as -> by congruence.
    apply (Hother' c); [done|done|by apply sees_sym|by apply Hag].
Qed.

Lemma solve_run (b : Sudoku) :
  solve_fuel (S (emptyCount b)) (mkGame false b) = Some (solve (mkGame false b)).
Proof. apply solve_fuel_enough. simpl. lia. Qed.

Lemma solve_consistent_completion (b : Sudoku) :
  is_grid b → consistentGivens b →
  solved (solve (mkGame false b)) = true →
  completionOf b (board (solve (mkGame false b))).
Proof.
  intros Hg Hcons Hs.
  pose proof (solve_fuel_sound _ _ _ Hg (solve_run b) Hs) as Hcomp.
  split_and!; [apply Hcomp| |apply Hcomp].
  apply fits_valid. by apply (completes_consistent_fits b).
Qed.

Lemma solve_solvable_solved (b : Sudoku) :
  solvable b → solved (solve (mkGame false b)) = true.
Proof.
  intros (Hg & S & HgS & Hv & Hag).
  destruct (solve_fuel_complete (Datatypes.S (emptyCount b)) b S) as [F HF];
    [done|lia|done..|].
  by rewrite (solve_fuel_solve _ _ _ HF).
Qed.

(** X4: on a 9x9 board whose givens are digits of 1-9 that do not conflict
    with each other, [solve] reports [solved: true] exactly when the board
    has a valid completion, and the board it returns then is one: valid in
    all 27 regions and equal to the input on the givens.  When the completion
    is unique, [solve] returns it. *)
Theorem solve_solved_iff_solvable (b : Sudoku) :
  is_grid b → consistentGivens b →
  (solved (solve (mkGame false b)) = true ↔ solvable b) ∧
  (solved (solve (mkGame false b)) = true →
   completionOf b (board (solve (mkGame false b)))) ∧
  (∀ S, completionOf b S → (∀ S', completionOf b S' → S' = S) →
        solve (mkGame false b) = mkGame true S).
Proof.
  intros Hg Hcons.
  pose proof (solve_consistent_completion b Hg Hcons) as Hsound.
  pose proof (solve_solvable_solved b) as Hcomplete.
  split_and!; [split|done|].
  - intros Hs. split; [done|]. exists (board (solve (mkGame false b))).
    apply (Hsound Hs).
  - done.
  - intros S HS Huniq.
    assert (solved (solve (mkGame false b)) = true) as Hs.
    { apply Hcomplete. split; [done|]. by exists S. }
    rewrite <- (Huniq _ (Hsound Hs)).
    destruct (solve (mkGame false b)) as [s F]. simpl in *. by subst s.
Qed.

Lemma solve_solved_iff_solvable_witness :
  is_grid deadEndBoard ∧ consistentGivens deadEndBoard ∧
  solved (solve (mkGame false deadEndBoard)) = false ∧
  ¬ solvable deadEndBoard.
Proof.
  assert (is_grid deadEndBoard) as Hg.
  { apply is_gridb_true. vm_compute. reflexivity. }
  assert (consistentGivens deadEndBoard) as Hcons.
  { apply (bool_decide_unpack _). vm_compute. reflexivity. }
  assert (solved (solve (mkGame false deadEndBoard)) = false) as Hs.
  { vm_compute. reflexivity. }
  split_and!; [done..|].
  intros Hsolvable.
  apply (solve_solved_iff_solvable deadEndBoard Hg Hcons) in Hsolvable. congruence.
Defined.

(** ** The order of the search *)

Lemma completion_option (b S : Sudoku) next :
  is_grid b → validSolution S → agreesOnGivens b S →
  inDomain next → emptyAt b next →
  ∃ v, cellAt S next.1 next.2 = Some (Some v) ∧ v ∈ getOptionsForCoord b next.
Proof.
  intros Hg Hv Hag Hdom Hempty.
  destruct (valid_fits S next Hv Hdom) as (v & HSnext & Hdig & Hother).
  exists v. split; [done|].
  apply elem_of_getOptionsForCoord; [done..|]. split; [done|].
  intros c' Hc' Hsees Hbc'. destruct (decide (c' = next)) as [->|Hne].
  - unfold emptyAt in Hempty. congruence.
  - apply (Hother c'); [done..|]. by apply Hag.
Qed.

Lemma agreesOnGivens_place (b S : Sudoku) next v (x : Cell) :
  agreesOnGivens b S → cellAt b next.1 next.2 = Some x →
  cellAt S next.1 next.2 = Some (Some v) →
  agreesOnGivens (place b next v) S.
Proof.
  intros Hag Hx HS i j d. destruct (decide ((i, j) = next)) as [<-|Hne].
  - erewrite (cellAt_place_eq b (i, j)) by done. by intros [= <-].
  - rewrite cellAt_place_ne by done. apply Hag.
Qed.

Lemma tryOptions_least rec (b S : Sudoku) next options v F :
  is_grid b → inDomain next → emptyAt b next →
  (∀ c', inDomain c' → lexLt c' next → ¬ emptyAt b c') →
  agreesOnGivens b S → cellAt S next.1 next.2 = Some (Some v) →
  StronglySorted lt options → v ∈ options →
  (∀ o r, rec (mkGame false (place b next o)) = Some r → solved r = true →
          completes (place b next o) (board r)) →
  (∃ F', rec (mkGame false (place b next v)) = Some (mkGame true F')) →
  (∀ F', rec (mkGame false (place b next v)) = Some (mkGame true F') →
         boardLe F' S) →
  tryOptions rec (mkGame false b) next options = Some (mkGame true F) →
  boardLe F S.
Proof.
  intros Hg Hdom Hempty Hbefore Hag HSnext Hsorted Hv Hsound [F' Hcomplete] Hleast.
  revert Hsorted Hv.
  induction options as [|o rest IH]; intros Hsorted Hv; simpl;
    [by apply elem_of_nil in Hv|].
  apply StronglySorted_inv in Hsorted as [Hsorted Ho].
  destruct (rec (mkGame false (place b next o))) as [fg|] eqn:Hfg; [|done].
  destruct (solved fg) eqn:Hs.
  - intros [= ->]. apply elem_of_cons in Hv as [<-|Hv]; [by apply Hleast|].
    rewrite Forall_forall in Ho. specialize (Ho v Hv).
    destruct (Hsound o _ Hfg Hs) as (_ & _ & HagF & _). simpl in HagF.
    right. exists next, o, v. split_and!; [done| |done|done|].
    + apply HagF. by eapply cellAt_place_eq.
    + intros c' Hc' Hlt.
      destruct (is_grid_cellAt b c' Hg Hc') as [[d|] Hbc'];
        [|by destruct (Hbefore c' Hc' Hlt)].
      rewrite (Hag _ _ _ Hbc'). apply HagF. rewrite cellAt_place_ne; [done|].
      intros Heq. destruct c' as [i j]. simpl in *. subst next.
      unfold emptyAt in Hempty. simpl in Hempty. congruence.
  - apply elem_of_cons in Hv as [<-|Hv]; [|by apply IH].
    rewrite Hcomplete in Hfg. injection Hfg as <-. done.
Qed.

Lemma solve_fuel_least fuel (b S F : Sudoku) :
  is_grid b → emptyCount b < fuel →
  validSolution S → agreesOnGivens b S →
  solve_fuel fuel (mkGame false b) = Some (mkGame true F) → boardLe F S.
Proof.
  revert b F. induction fuel as [|fuel IH]; intros b F Hg Hfuel Hv Hag; [lia|].
  simpl. unfold solveBody. simpl board.
  destruct (getNextEmptyCoord b) as [next|] eqn:Hnext.
  - apply getNextEmptyCoord_Some in Hnext as (Hdom & Hempty & Hbefore).
    destruct (completion_option b S next Hg Hv Hag Hdom Hempty) as (v & HSnext & Hvin).
    pose proof (emptyCount_place b next v Hempty) as Hcount.
    assert (agreesOnGivens (place b next v) S) as Hag'.
    { by apply (agreesOnGivens_place b S next v None). }
    destruct (getOptionsForCoord b next) as [|o0 rest] eqn:Hopts.
    { by apply elem_of_nil in Hvin. }
    simpl length. simpl Nat.eqb. cbv iota. rewrite <- Hopts in *.
    apply (tryOptions_least _ b S next _ v); try done.
    + rewrite getOptionsForCoord_filter.
      apply StronglySorted_filter, StronglySorted_seq.
    + intros o r Hr Hs. apply (solve_fuel_sound fuel); [by apply place_is_grid|done..].
    + apply (solve_fuel_complete fuel _ S); [by apply place_is_grid|lia|done..].
    + intros F'. apply IH; [by apply place_is_grid|lia|done..].
  - intros [= <-]. left. intros c Hc. apply getNextEmptyCoord_None in Hnext.
    destruct (is_grid_cellAt b c Hg Hc) as [[d|] Hbc]; [|by destruct (Hnext c Hc)].
    rewrite Hbc. symmetry. by apply Hag.
Qed.

(** X5: among the valid completions of a board [solve] returns the first
    one in its search order.  Read row by row, the board it returns is equal
    to any given valid completion on all 81 cells, or holds the smaller digit
    at the first cell where the two differ. *)
Theorem solve_least (b S : Sudoku) :
  is_grid b → completionOf b S →
  ∃ F, solve (mkGame false b) = mkGame true F ∧ boardLe F S.
Proof.
  intros Hg (HgS & Hv & Hag).
  destruct (solve_fuel_complete (Datatypes.S (emptyCount b)) b S) as [F HF];
    [done|lia|done..|].
  exists F. split; [by apply (solve_fuel_solve _ _ _ HF)|].
  apply (solve_fuel_least _ b S F Hg (Nat.lt_succ_diag_r _) Hv Hag HF).
Qed.

Lemma solve_least_witness :
  is_grid emptyBoard ∧ completionOf emptyBoard solvedBoard ∧
  ∃ F, solve (mkGame false emptyBoard) = mkGame true F ∧ boardLe F solvedBoard.
Proof.
  assert (is_grid emptyBoard) as Hg.
  { apply is_gridb_true. vm_compute. reflexivity. }
  assert (completionOf emptyBoard solvedBoard) as HS.
  { split_and!; [apply is_gridb_true; vm_compute; reflexivity| |].
    - apply validSolution_Forall, (bool_decide_unpack _). vm_compute. reflexivity.
    - intros i j d Hd. exfalso. unfold cellAt, emptyBoard in Hd.
      apply bind_Some in Hd as (row & Hrow & Hd).
      apply lookup_replicate in Hrow as [-> _].
      by apply lookup_replicate in Hd as [? _]. }
  split_and!; [done..|]. apply (solve_least emptyBoard solvedBoard Hg HS).
Defined.

(** ** The verdict of [main] *)

Lemma consistent_full_valid (b : Sudoku) :
  is_grid b → consistentGivens b → full b → validSolution b.
Proof.
  intros Hg Hcons Hfull. apply fits_valid. intros c Hc.
  destruct (is_grid_cellAt b c Hg Hc) as [[d|] Hbc]; [|by destruct (Hfull c Hc)].
  destruct (consistentGivens_spec b c d Hcons Hc Hbc) as [Hdig Hother].
  exists d. done.
Qed.

Lemma mainOn_unfold (input : Sudoku) :
  mainOn input =
  mainHeader input ++
  (if checkFullBoard input then ["PRE-SOLVED"%string]
   else if solved (solve (mkGame false input))
        then ["SOLVED"%string] ++ prettyPrint (board (solve (mkGame false input)))
        else ["UNSOLVABLE"%string]).
Proof.
  unfold mainOn, mainHeader. rewrite <- !(assoc_L (++)).
  destruct (checkFullBoard input); [done|]. simpl negb. cbv iota.
  by destruct (solved (solve (mkGame false input))).
Qed.

(** X6: on a 9x9 board whose givens do not conflict, the verdict that
    [main] logs is the right one.  It logs "PRE-SOLVED" when the board is full
    (it is then a valid solution); otherwise "SOLVED" and the print of a valid
    completion of the board when there is one, and "UNSOLVABLE" when there is
    none. *)
Theorem mainOn_verdict (b : Sudoku) :
  is_grid b → consistentGivens b →
  (full b ∧ validSolution b ∧
   mainOn b = mainHeader b ++ ["PRE-SOLVED"%string]) ∨
  (¬ full b ∧ ∃ F, completionOf b F ∧
   mainOn b = mainHeader b ++ ["SOLVED"%string] ++ prettyPrint F) ∨
  (¬ full b ∧ ¬ solvable b ∧
   mainOn b = mainHeader b ++ ["UNSOLVABLE"%string]).
Proof.
  intros Hg Hcons. rewrite mainOn_unfold.
  destruct (getNextEmptyCoord b) as [next|] eqn:Hnext.
  - assert (¬ full b) as Hnotfull.
    { intros Hfull%getNextEmptyCoord_None. congruence. }
    assert (checkFullBoard b = false) as -> by (unfold checkFullBoard; by rewrite Hnext).
    right. destruct (solved (solve (mkGame false b))) eqn:Hs.
    + left. split; [done|]. exists (board (solve (mkGame false b))).
      split; [by apply solve_consistent_completion|done].
    + right. split_and!; [done| |done].
      intros Hsolvable%solve_solvable_solved. congruence.
  - apply getNextEmptyCoord_None in Hnext as Hfull.
    pose proof (consistent_full_valid b Hg Hcons Hfull) as Hv.
    rewrite (checkFullBoard_valid b Hg Hv). left. done.
Qed.

Lemma mainOn_verdict_witness :
  is_grid deadEndBoard ∧ consistentGivens deadEndBoard ∧
  mainOn deadEndBoard = mainHeader deadEndBoard ++ ["UNSOLVABLE"%string].
Proof.
  assert (is_grid deadEndBoard) as Hg.
  { apply is_gridb_true. vm_compute. reflexivity. }
  assert (consistentGivens deadEndBoard) as Hcons.
  { apply (bool_decide_unpack _). vm_compute. reflexivity. }
  split_and!; [done..|].
  destruct (mainOn_verdict deadEndBoard Hg Hcons)
    as [(_ & _ & H)|[(_ & F & _ & H)|(_ & _ & H)]]; [| |exact H];
    exfalso; revert H; vm_compute; discriminate.
Defined.

(** ** Filling the first empty cell *)

(** X7: the search fills the cells in row-then-column order.  Once a digit
    is put in the first empty cell [c] of a board, the first empty cell of the
    new board is an empty cell of the old one that comes after [c]; and there
    is none exactly when [c] was the only empty cell. *)
Theorem getNextEmptyCoord_place (b : Sudoku) c d :
  getNextEmptyCoord b = Some c →
  (∀ c', getNextEmptyCoord (place b c d) = Some c' → lexLt c c' ∧ emptyAt b c') ∧
  (getNextEmptyCoord (place b c d) = None ↔
   ∀ c', inDomain c' → emptyAt b c' → c' = c).
Proof.
  intros (Hc & He & Hmin)%getNextEmptyCoord_Some.
  assert (∀ c', c' ≠ c → emptyAt (place b c d) c' ↔ emptyAt b c') as Hother.
  { intros [i j] Hne. unfold emptyAt. simpl. by rewrite cellAt_place_ne. }
  assert (¬ emptyAt (place b c d) c) as Hfilled.
  { unfold emptyAt. by erewrite cellAt_place_eq by done. }
  split.
  - intros c' (Hc' & He' & _)%getNextEmptyCoord_Some.
    assert (c' ≠ c) as Hne by (by intros ->).
    apply Hother in He'; [|done]. split; [|done].
    destruct (lexLt_total c c') as [?|[->|Hlt]]; [done|done|].
    by destruct (Hmin c' Hc' Hlt).
  - rewrite getNextEmptyCoord_None. split.
    + intros Hfull c' Hc' He'. destruct (decide (c' = c)) as [|Hne]; [done|].
      destruct (Hfull c' Hc'). by apply Hother.
    + intros Honly c' Hc' He'. destruct (decide (c' = c)) as [->|Hne]; [done|].
      apply Hne, Honly; [done|]. by apply Hother.
Qed.

Lemma getNextEmptyCoord_place_witness :
  getNextEmptyCoord twoFivesBoard = Some (0, 2) ∧
  getNextEmptyCoord (place twoFivesBoard (0, 2) 1) = Some (0, 3) ∧
  lexLt (0, 2) (0, 3).
Proof.
  assert (getNextEmptyCoord twoFivesBoard = Some (0, 2)) as Hnext by reflexivity.
  split_and!; [done|reflexivity|].
  apply (getNextEmptyCoord_place twoFivesBoard (0, 2) 1 Hnext). reflexivity.
Defined.

(** ** What the validator checks *)

(** X8: on a 9x9 board [checkFullBoard] returns true exactly when no cell is
    empty and every row, every column and the three sub-grids on the diagonal
    (top-left, centre, bottom-right) hold the digits 1-9 once each.  A board
    that it accepts is returned by [solve] as it is, with [solved: true]. *)
Theorem checkFullBoard_iff (b : Sudoku) :
  is_grid b →
  (checkFullBoard b = true ↔
   full b ∧
   (∀ i, i < 9 → regionOk b (rowCoords i)) ∧
   (∀ j, j < 9 → regionOk b (colCoords j)) ∧
   regionOk b (subGridCoords 0) ∧ regionOk b (subGridCoords 4) ∧
   regionOk b (subGridCoords 8)) ∧
  (checkFullBoard b = true → solve (mkGame false b) = mkGame true b).
Proof.
  intros Hg. split.
  - rewrite checkFullBoard_true by done. apply and_iff_compat_l. split.
    + intros H. split_and!.
      * intros i Hi. by apply H.
      * intros j Hj. by apply H.
      * apply (H 0). lia.
      * apply (H 1). lia.
      * apply (H 2). lia.
    + intros (Hr & Hc & H0 & H4 & H8) i Hi. split_and!; [by apply Hr|by apply Hc|].
      lt9 i; done.
  - intros [Hfull _]%checkFullBoard_true; [|done]. by apply solve_full.
Qed.

Lemma checkFullBoard_iff_witness :
  is_grid solvedBoard ∧ checkFullBoard solvedBoard = true ∧
  solve (mkGame false solvedBoard) = mkGame true solvedBoard.
Proof.
  assert (is_grid solvedBoard) as Hg.
  { apply is_gridb_true. vm_compute. reflexivity. }
  assert (checkFullBoard solvedBoard = true) as Hcheck by (vm_compute; reflexivity).
  split_and!; [done..|]. by apply (checkFullBoard_iff solvedBoard Hg).
Defined.

(** ** The outcomes of parsing *)

Lemma mapE_inl {E A B} (f : A → E + B) (xs : list A) (e : E) :
  mapE f xs = inl e ↔
  ∃ pre x post, xs = pre ++ x :: post ∧
                Forall (λ y, ∃ z, f y = inr z) pre ∧ f x = inl e.
Proof.
  induction xs as [|x xs IH]; simpl.
  - split; [done|]. intros (pre & y & post & Heq & _). by destruct pre.
  - destruct (f x) as [e'|y] eqn:Hx.
    + split.
      * intros [= ->]. exists [], x, xs. by split_and!.
      * intros ([|x' pre] & y & post & [= <- ->] & Hpre & Hy); [congruence|].
        apply Forall_cons in Hpre as [[z Hz] _]. congruence.
    + destruct (mapE f xs) as [e'|ys] eqn:Hxs.
      * split.
        -- intros (pre & x' & post & -> & Hpre & Hx')%IH.
           exists (x :: pre), x', post. split_and!; [done| |done].
           constructor; [by exists y|done].
        -- intros ([|x0 pre] & x' & post & [= <- Heq] & Hpre & Hx'); [congruence|].
           apply Forall_cons in Hpre as [_ Hpre].
           apply IH. by exists pre, x', post.
      * split; [done|].
        intros ([|x0 pre] & x' & post & [= <- Heq] & Hpre & Hx'); [congruence|].
        apply Forall_cons in Hpre as [_ Hpre].
        assert (@inr E (list B) ys = inl e) as Habs; [|done].
        apply IH. by exists pre, x', post.
Qed.

Lemma parseChar_inl char e :
  parseChar char = inl e ↔ ¬ accepted char ∧ e = BadCharacter.
Proof.
  destruct (parseChar char) as [e'|c] eqn:Hc.
  - assert (¬ accepted char) as Hna.
    { intros Ha. assert (parseChar char = inr (parseInt char)) as H
        by by apply parseChar_inr.
      congruence. }
    assert (e' = BadCharacter) as ->.
    { unfold parseChar in Hc. destruct (parseInt char); [done|].
      case_bool_decide; congruence. }
    split; [by intros [= <-]|]. by intros [_ ->].
  - split; [done|]. intros [Hna _]. apply parseChar_inr in Hc as [? _]. done.
Qed.

Lemma parseLine_inl line e :
  parseLine line = inl e ↔
  (String.length line ≠ 9 ∧ e = BadLineLength) ∨
  (String.length line = 9 ∧ ¬ Forall accepted (list_ascii_of_string line) ∧
   e = BadCharacter).
Proof.
  unfold parseLine.
  destruct (Nat.eqb_spec (String.length line) 9) as [Hlen|Hlen]; simpl.
  - rewrite mapE_inl. split.
    + intros (pre & ch & post & Heq & _ & [Hna ->]%parseChar_inl).
      right. split_and!; [done| |done]. rewrite Heq. intros Hall.
      apply Forall_app in Hall as [_ [? _]%Forall_cons]. done.
    + intros [[? _]|(_ & Hnot & ->)]; [done|].
      apply not_Forall_Exists in Hnot; [|apply _].
      induction Hnot as [ch l Hch|ch l Hl IH].
      * exists [], ch, l. split_and!; [done|constructor|by apply parseChar_inl].
      * destruct (decide (accepted ch)) as [Hacc|Hna].
        -- destruct IH as (pre & ch' & post & -> & Hpre & Hch').
           exists (ch :: pre), ch', post. split_and!; [done| |done].
           constructor; [|done]. exists (parseInt ch). by apply parseChar_inr.
        -- exists [], ch, l. split_and!; [done|constructor|by apply parseChar_inl].
  - split; [intros [= <-]; by left|]. intros [[_ ->]|[? _]]; done.
Qed.

Lemma parseLine_accepted line :
  acceptedLine line ↔ ∃ row, parseLine line = inr row.
Proof.
  unfold acceptedLine. split.
  - intros [? ?]. exists (parseInt <$> list_ascii_of_string line).
    by apply parseLine_inr.
  - intros [row (? & ? & _)%parseLine_inr]. done.
Qed.

(** X9: the outcome of [parseGame] is decided by the text between the line
    breaks, the last piece left out.  A board comes back exactly when there
    are 9 lines of 9 characters, each a decimal digit or a space; cell
    [(i, j)] is then the digit at place [j] of line [i], or empty for a space.
    Otherwise the error is "not 9 lines" when the count is wrong, and else
    that of the first line that is not accepted: "line length" when it has
    not 9 characters, "bad character" when it has. *)
Theorem parseGame_outcome (content : string) :
  let lines := removelast (split EOL content) in
  (∀ b, parseGame content = inr b ↔
        length lines = 9 ∧ Forall acceptedLine lines ∧
        b = (λ line, parseInt <$> list_ascii_of_string line) <$> lines) ∧
  (∀ e, parseGame content = inl e ↔
        (length lines ≠ 9 ∧ e = NotNineLines) ∨
        (length lines = 9 ∧
         ∃ pre line post, lines = pre ++ line :: post ∧ Forall acceptedLine pre ∧
           ((String.length line ≠ 9 ∧ e = BadLineLength) ∨
            (String.length line = 9 ∧
             ¬ Forall accepted (list_ascii_of_string line) ∧ e = BadCharacter)))).
Proof.
  intros lines. split.
  - intros b. apply parseGame_inr.
  - intros e. unfold parseGame. fold lines.
    destruct (Nat.eqb_spec (length lines) 9) as [Hlen|Hlen]; simpl.
    + rewrite mapE_inl. split.
      * intros (pre & line & post & Heq & Hpre & Hline%parseLine_inl).
        right. split; [done|]. exists pre, line, post. split_and!; [done| |done].
        eapply Forall_impl; [done|]. intros l Hl. by apply parseLine_accepted.
      * intros [[? _]|(_ & pre & line & post & Heq & Hpre & Hline)]; [done|].
        exists pre, line, post. split_and!; [done| |by apply parseLine_inl].
        eapply Forall_impl; [done|]. intros l Hl. by apply parseLine_accepted.
    + split; [intros [= <-]; by left|].
      intros [[_ ->]|[? _]]; done.
Qed.

(** X10: a board that [parseGame] returns is a 9x9 grid, and each of its
    cells is empty or holds a number from 0 to 9.  The number 0 is the only
    way out of the type [Sudoku]: the result is a board of digits 1-9 and
    empty cells exactly when no cell holds 0. *)
Theorem parseGame_grid (content : string) (b : Sudoku) :
  parseGame content = inr b →
  is_grid b ∧
  (∀ i j n, cellAt b i j = Some (Some n) → n ≤ 9) ∧
  (is_board b ↔ ∀ i j, cellAt b i j ≠ Some (Some 0)).
Proof.
  intros (Hlen & Hlines & ->)%parseGame_inr.
  set (lines := removelast (split EOL content)) in *.
  assert (is_grid ((λ line, parseInt <$> list_ascii_of_string line) <$> lines)) as Hg.
  { split; [by rewrite length_fmap|]. apply Forall_fmap.
    eapply Forall_impl; [done|]. intros line [Hline _]. simpl.
    rewrite length_fmap. clear -Hline.
    revert Hline. generalize 9. induction line as [|c line IH]; intros n; simpl; [done|].
    destruct n as [|n]; [done|]. intros [= H]. f_equal. by apply IH. }
  assert (∀ i j n,
    cellAt ((λ line, parseInt <$> list_ascii_of_string line) <$> lines) i j
      = Some (Some n) → n ≤ 9) as Hsmall.
  { intros i j n. unfold cellAt. rewrite list_lookup_fmap.
    destruct (lines !! i) as [line|]; simpl; [|done].
    rewrite list_lookup_fmap. destruct (_ !! j) as [ch|]; simpl; [|done].
    intros [= H]. apply parseInt_Some in H as [Hr ->]. lia. }
  split_and!; [done|done|]. split.
  - intros Hb i j H0. apply (is_board_digit _ _ _ _ Hb) in H0. unfold digit in H0. lia.
  - intros Hno0. split; [done|]. apply Forall_forall. intros row Hrow.
    apply Forall_forall. intros [n|] Hn; [|done]. simpl.
    apply list_elem_of_lookup in Hrow as [i Hi], Hn as [j Hj].
    assert (cellAt ((λ line, parseInt <$> list_ascii_of_string line) <$> lines) i j
            = Some (Some n)) as Hcell.
    { unfold cellAt. by rewrite Hi. }
    pose proof (Hsmall _ _ _ Hcell). unfold digit. split; [|done].
    destruct n; [|lia]. by destruct (Hno0 i j).
Qed.

Lemma parseGame_grid_witness :
  parseGame zeroFile
    = inr ((Some 0 :: replicate 8 None) :: replicate 8 (replicate 9 None)) ∧
  is_grid ((Some 0 :: replicate 8 None) :: replicate 8 (replicate 9 None)).
Proof.
  assert (parseGame zeroFile
    = inr ((Some 0 :: replicate 8 None) :: replicate 8 (replicate 9 None))) as H.
  { vm_compute. reflexivity. }
  split; [done|].
  destruct (parseGame_grid zeroFile _ H) as (Hg & _ & _). exact Hg.
Defined.

(** ** The last line break *)

Lemma splitFrom_noEOL (s cur : string) :
  noEOL s = true → splitFrom EOL s 0 cur = [(cur ++ s)%string].
Proof.
  revert cur. induction s as [|c s IH]; intros cur Hs.
  - by rewrite append_empty_r.
  - simpl in Hs. apply andb_true_iff in Hs as [Hc Hs].
    apply negb_true_iff, bool_decide_eq_false in Hc.
    cbn [splitFrom]. rewrite prefix_EOL, bool_decide_eq_false_2 by done.
    rewrite IH by done. by rewrite append_assoc.
Qed.

Lemma splitFrom_last_break (s junk cur : string) :
  noEOL junk = true →
  splitFrom EOL (s ++ EOL ++ junk) 0 cur = splitFrom EOL s 0 cur ++ [junk].
Proof.
  intros Hjunk. revert cur. induction s as [|c s IH]; intros cur.
  - rewrite append_empty_l. unfold EOL at 2. rewrite append_cons, append_empty_l.
    cbn [splitFrom]. rewrite prefix_EOL, bool_decide_eq_true_2 by done.
    change (String.length EOL - 1) with 0.
    rewrite splitFrom_noEOL by done. by rewrite append_empty_l.
  - rewrite append_cons. cbn [splitFrom]. rewrite !prefix_EOL.
    case_bool_decide; change (String.length EOL - 1) with 0; by rewrite IH.
Qed.

(** X11: [parseGame] reads its lines from the text before the last line
    break.  What follows the last line break is dropped unread, whatever it
    is, and a text without any line break is rejected. *)
Theorem parseGame_last_break (content junk : string) :
  noEOL junk = true →
  parseGame (content ++ EOL ++ junk)
  = (if negb (length (split EOL content) =? 9) then inl NotNineLines
     else mapE parseLine (split EOL content)) ∧
  parseGame junk = inl NotNineLines.
Proof.
  intros Hjunk. split.
  - unfold parseGame, split. rewrite splitFrom_last_break by done.
    by rewrite removelast_last.
  - unfold parseGame, split. by rewrite splitFrom_noEOL by done.
Qed.

Lemma parseGame_last_break_witness :
  noEOL "1 2 3"%string = true ∧
  parseGame "1 2 3" = inl NotNineLines.
Proof.
  assert (noEOL "1 2 3"%string = true) as H by reflexivity.
  split; [done|]. apply (parseGame_last_break EmptyString "1 2 3" H).
Defined.

(** ** Rows, columns and sub-grids *)

Lemma grid_cellAt_readCell (b : Sudoku) i j :
  is_grid b → i < 9 → j < 9 → cellAt b i j = Some (readCell b i j).
Proof.
  intros Hg Hi Hj. destruct (is_grid_cellAt b (i, j) Hg) as [x Hx]; [done|].
  simpl in Hx. unfold readCell. by rewrite Hx.
Qed.

(** X12: on a 9x9 board the three accessors return the nine cells of the
    row, of the column and of the sub-grid of the coordinate, in a fixed
    order: the row from left to right, the column from top to bottom, the
    sub-grid row by row. *)
Theorem region_contents (b : Sudoku) (c : Coord) :
  is_grid b → inDomain c →
  length (getRowContents b c) = 9 ∧
  length (getColumnContents b c) = 9 ∧
  length (getSubGridContents b c) = 9 ∧
  ∀ k, k < 9 →
    getRowContents b c !! k = cellAt b c.1 k ∧
    getColumnContents b c !! k = cellAt b k c.2 ∧
    getSubGridContents b c !! k
      = cellAt b (c.1 / 3 * 3 + k / 3) (c.2 / 3 * 3 + k mod 3).
Proof.
  intros Hg [Hi Hj].
  rewrite (getRowContents_cells b c), (getColumnContents_cells b c) by done.
  unfold getSubGridContents, cellsOf, rowCoords, colCoords, keys9.
  rewrite !length_fmap, !length_seq. split_and!; [done..|].
  intros k Hk. rewrite <- !list_fmap_compose, !list_lookup_fmap.
  rewrite lookup_seq_lt by done. simpl. split_and!.
  - by rewrite grid_cellAt_readCell.
  - by rewrite grid_cellAt_readCell.
  - rewrite grid_cellAt_readCell; [done|done|..].
    + destruct c as [i j]. simpl in *. lt9 i; lt9 k; simpl; lia.
    + destruct c as [i j]. simpl in *. lt9 j; lt9 k; simpl; lia.
Qed.

Lemma region_contents_witness :
  is_grid solvedBoard ∧ inDomain (4, 7) ∧
  getSubGridContents solvedBoard (4, 7) !! 4 = Some (Some 3).
Proof.
  assert (is_grid solvedBoard) as Hg.
  { apply is_gridb_true. vm_compute. reflexivity. }
  assert (inDomain (4, 7)) as Hc by (split; simpl; lia).
  split_and!; [done..|].
  destruct (region_contents solvedBoard (4, 7) Hg Hc) as (_ & _ & _ & H).
  destruct (H 4) as (_ & _ & Hsub); [lia|].
  rewrite Hsub. reflexivity.
Defined.

(** X13: on a 9x9 board [transpose] swaps rows and columns: the result is
    a 9x9 board, its cell [(j, i)] is cell [(i, j)] of the input, and
    transposing twice gives the input back. *)
Theorem transpose_grid (b : Sudoku) :
  is_grid b →
  is_grid (transpose b) ∧
  (∀ i j, i < 9 → j < 9 → cellAt (transpose b) j i = cellAt b i j) ∧
  transpose (transpose b) = b.
Proof.
  assert (∀ b' : Sudoku, is_grid b' →
    is_grid (transpose b') ∧
    ∀ i j, i < 9 → j < 9 → cellAt (transpose b') j i = cellAt b' i j) as Hstep.
  { intros b' Hg. split.
    - split.
      + destruct (is_grid_row b' 0 Hg) as (row & Hrow & Hlen); [lia|].
        unfold transpose. by rewrite length_imap, Hrow.
      + apply Forall_forall. intros col [j Hcol]%list_elem_of_lookup.
        assert (j < 9) as Hj.
        { apply lookup_lt_Some in Hcol. unfold transpose in Hcol.
          rewrite length_imap in Hcol.
          destruct (is_grid_row b' 0 Hg) as (row & Hrow & Hlen); [lia|].
          rewrite Hrow in Hcol. simpl in Hcol. lia. }
        rewrite transpose_lookup in Hcol by done. injection Hcol as <-.
        rewrite length_fmap. apply Hg.
    - intros i j Hi Hj. unfold cellAt at 1. rewrite transpose_lookup by done.
      simpl. rewrite list_lookup_fmap.
      destruct (is_grid_row b' i Hg Hi) as (row & Hrow & Hlen).
      unfold cellAt. rewrite Hrow. simpl.
      destruct (lookup_lt_is_Some_2 row j) as [x ->]; [lia|]. done. }
  intros Hg. destruct (Hstep b Hg) as [Hgt Hcells]. split_and!; [done..|].
  destruct (Hstep (transpose b) Hgt) as [Hgtt Hcells'].
  apply grid_ext; [done..|]. intros i j Hi Hj.
  by rewrite Hcells', Hcells.
Qed.

Lemma transpose_grid_witness :
  is_grid twoFivesBoard ∧ transpose (transpose twoFivesBoard) = twoFivesBoard ∧
  cellAt (transpose twoFivesBoard) 1 0 = Some (Some 5).
Proof.
  assert (is_grid twoFivesBoard) as Hg.
  { apply is_gridb_true. vm_compute. reflexivity. }
  destruct (transpose_grid twoFivesBoard Hg) as (_ & Hcell & Hinv).
  split_and!; [done|exact Hinv|]. rewrite Hcell by lia. reflexivity.
Defined.

(** ** Sets of numbers *)

Lemma compressContents_foldl (l : list Cell) (s : list nat) :
  NoDup s →
  NoDup (foldl (λ contents (item : Cell),
                  match item with
                  | Some n => if truthy item then JSSet.add contents n else contents
                  | None => contents
                  end) s l).
Proof.
  revert s. induction l as [|item l IH]; intros s Hs; simpl; [done|].
  apply IH. destruct item as [n|]; [|done].
  destruct (truthy (Some n)); [by apply NoDup_add|done].
Qed.

(** X14: [compressContents] returns the numbers of the cells it is given,
    each once: a number is in the result exactly when some cell holds it and
    it is not 0.  Empty cells and the number 0 are left out. *)
Theorem compressContents_spec (l : list Cell) :
  NoDup (compressContents l) ∧
  (0 ∉ compressContents l) ∧
  ∀ d, d ∈ compressContents l ↔ d ≠ 0 ∧ Some d ∈ l.
Proof.
  split_and!.
  - apply compressContents_foldl. constructor.
  - intros [H _]%elem_of_compressContents. done.
  - intros d. apply elem_of_compressContents.
Qed.

Lemma length_filter_complement {A} (P : A → Prop) `{∀ x, Decision (P x)}
    (l : list A) :
  length (filter P l) + length (filter (λ x, ¬ P x) l) = length l.
Proof.
  induction l as [|x l IH]; [done|].
  rewrite !filter_cons. destruct (decide (P x)), (decide (¬ P x)); simpl; try lia; done.
Qed.

(** X15: [setDifference a b] and [setIntersection a b] split the set [a] in
    two: the elements that are not in [b] and those that are.  Neither has a
    duplicate, each keeps the elements in the order of [a], and when [a] is a
    set their sizes add up to the size of [a]. *)
Theorem setDifference_setIntersection {A} `{EqDecision A} (a b : list A) :
  NoDup (setDifference a b) ∧ NoDup (setIntersection a b) ∧
  (∀ x, x ∈ setDifference a b ↔ x ∈ a ∧ x ∉ b) ∧
  (∀ x, x ∈ setIntersection a b ↔ x ∈ a ∧ x ∈ b) ∧
  (NoDup a →
   setDifference a b `sublist_of` a ∧ setIntersection a b `sublist_of` a ∧
   JSSet.size (setDifference a b) + JSSet.size (setIntersection a b)
   = JSSet.size a).
Proof.
  split_and!.
  - apply NoDup_from.
  - apply NoDup_from.
  - intros x. apply elem_of_setDifference.
  - intros x. apply elem_of_setIntersection.
  - intros Ha. rewrite setDifference_filter, setIntersection_filter by done.
    split_and!; [apply sublist_filter..|].
    unfold JSSet.size. rewrite <- (length_filter_complement (λ x, JSSet.has b x = false) a).
    f_equal. f_equal. apply list_filter_iff. intros x.
    destruct (JSSet.has b x); split; congruence.
Qed.

(** ** Candidates and conflicts *)

Lemma consistentGivens_intro (b : Sudoku) :
  (∀ c d, inDomain c → cellAt b c.1 c.2 = Some (Some d) →
     digit d ∧
     ∀ c', inDomain c' → c' ≠ c → sees c c' → cellAt b c'.1 c'.2 ≠ Some (Some d)) →
  consistentGivens b.
Proof.
  intros H. apply Forall_forall. intros c Hc%elem_of_allCoords d Hd.
  destruct (H c d Hc Hd) as [Hdig Hother]. split; [done|].
  apply Forall_forall. intros c' Hc'%elem_of_allCoords. by apply Hother.
Qed.

(** X16: the candidates of an empty cell are exactly the numbers that can
    be placed there without a conflict.  On a 9x9 board whose givens do not
    conflict, a number is returned by [getOptionsForCoord] for an empty cell
    exactly when the board with that number placed in the cell still has
    givens of 1-9 that do not conflict. *)
Theorem getOptionsForCoord_consistent (b : Sudoku) (c : Coord) (o : nat) :
  is_grid b → consistentGivens b → inDomain c → emptyAt b c →
  o ∈ getOptionsForCoord b c ↔ consistentGivens (place b c o).
Proof.
  intros Hg Hcons Hc Hempty.
  assert (cellAt (place b c o) c.1 c.2 = Some (Some o)) as Hplaced.
  { by eapply cellAt_place_eq. }
  assert (∀ c', c' ≠ c →
            cellAt (place b c o) c'.1 c'.2 = cellAt b c'.1 c'.2) as Hother.
  { intros [i j] Hne. simpl. by rewrite cellAt_place_ne. }
  rewrite elem_of_getOptionsForCoord by done. split.
  - intros [Hdig Hfree]. apply consistentGivens_intro. intros c1 d Hc1 Hd.
    destruct (decide (c1 = c)) as [->|Hne1].
    + assert (d = o) as -> by congruence. split; [done|].
      intros c' Hc' Hne Hsees. rewrite Hother by done. by apply Hfree.
    + rewrite Hother in Hd by done.
      destruct (consistentGivens_spec b c1 d Hcons Hc1 Hd) as [Hd1 Hd2].
      split; [done|]. intros c' Hc' Hne Hsees.
      destruct (decide (c' = c)) as [->|Hne'].
      * rewrite Hplaced. intros [= ->].
        apply (Hfree c1); [done|by apply sees_sym|done].
      * rewrite Hother by done. by apply Hd2.
  - intros Hcons'.
    destruct (consistentGivens_spec _ c o Hcons' Hc Hplaced) as [Hdig Hfree].
    split; [done|]. intros c' Hc' Hsees.
    destruct (decide (c' = c)) as [->|Hne].
    + unfold emptyAt in Hempty. congruence.
    + rewrite <- Hother by done. by apply Hfree.
Qed.

Lemma getOptionsForCoord_consistent_witness :
  is_grid deadEndBoard ∧ consistentGivens deadEndBoard ∧
  inDomain (1, 1) ∧ emptyAt deadEndBoard (1, 1) ∧
  3 ∈ getOptionsForCoord deadEndBoard (1, 1) ∧
  consistentGivens (place deadEndBoard (1, 1) 3).
Proof.
  assert (is_grid deadEndBoard) as Hg.
  { apply is_gridb_true. vm_compute. reflexivity. }
  assert (consistentGivens deadEndBoard) as Hcons.
  { apply (bool_decide_unpack _). vm_compute. reflexivity. }
  assert (inDomain (1, 1)) as Hc by (split; simpl; lia).
  assert (emptyAt deadEndBoard (1, 1)) as He by reflexivity.
  assert (3 ∈ getOptionsForCoord deadEndBoard (1, 1)) as H3.
  { apply (bool_decide_unpack _). vm_compute. reflexivity. }
  split_and!; [done..|].
  by apply (getOptionsForCoord_consistent deadEndBoard (1, 1) 3 Hg Hcons Hc He).
Defined.
